(** * emoji-reading: the random word layout of [generate.js]

    A shallow embedding of [src/generate.js] and the properties of its
    layout engine: the bounding-box estimator, the rectangle overlap test,
    the rejection-sampling placement search, the single layout pass of
    [generateSVG] and the retry loop of [main].

    Conventions of the embedding.
    - A JavaScript number is an element of a [Number] structure.  Two
      instances are given: [Exact] (rationals, the arithmetic the program
      is written in on paper) and [Double] (IEEE-754 binary64, the
      arithmetic the engine runs).  Every definition of the program is
      written once, over an arbitrary instance.
    - [Math.random] reads an ambient source; the source and the number of
      draws made so far are part of the [World] that every effectful
      function threads.
    - Arrays of words are reference values: the [World] has a heap of
      them, [[...words]] allocates and [.sort] updates in place.
    - A string stands for its sequence of UTF-16 code units; the program
      only takes its [length]. *)

From Stdlib Require Import QArith Lqa ZArith PrimFloat Uint63 Ascii.
From stdpp Require Import gmap strings list pretty.

Local Open Scope string_scope.

(** ** Numbers *)

Class Number := {
  num : Type;
  add : num -> num -> num;
  sub : num -> num -> num;
  mul : num -> num -> num;
  div : num -> num -> num;
  ltb : num -> num -> bool;      (* the operator [<] *)
  lit : Q -> num                 (* a numeric literal, or an integer value *)
}.

Declare Scope js_scope.
Delimit Scope js_scope with js.
Infix "+" := add : js_scope.
Infix "-" := sub : js_scope.
Infix "*" := mul : js_scope.
Infix "/" := div : js_scope.
Infix "<?" := ltb : js_scope.

(** Exact rational arithmetic. *)
Definition Qltb (a b : Q) : bool :=
  (Qnum a * QDen b <? Qnum b * QDen a)%Z.

#[export] Instance Exact : Number := {|
  num := Q;
  add := Qplus;
  sub := Qminus;
  mul := Qmult;
  div := Qdiv;
  ltb := Qltb;
  lit := fun q => q
|}.

(** IEEE-754 doubles.  A literal [n/d] with [n] and [d] below [2^53] is the
    double nearest to it, which the correctly rounded quotient of the two
    integers is. *)
Definition float_of_Z (z : Z) : float :=
  match z with
  | Zneg p => PrimFloat.opp (PrimFloat.of_uint63 (Uint63.of_Z (Zpos p)))
  | _ => PrimFloat.of_uint63 (Uint63.of_Z z)
  end.

#[export] Instance Double : Number := {|
  num := float;
  add := PrimFloat.add;
  sub := PrimFloat.sub;
  mul := PrimFloat.mul;
  div := PrimFloat.div;
  ltb := PrimFloat.ltb;
  lit := fun q => PrimFloat.div (float_of_Z (Qnum q)) (float_of_Z (Zpos (Qden q)))
|}.

(** ** Data *)

(** The object [{ width, height }] that [estimateBoundingBox] returns. *)
Module Box.
Record t `{Number} := mk { width : num; height : num }.
Arguments t {_}.
Arguments mk {_} _ _.
End Box.

(** The object [{ x, y, width, height }] of a placed rectangle. *)
Module Rect.
Record t `{Number} := mk { x : num; y : num; width : num; height : num }.
Arguments t {_}.
Arguments mk {_} _ _ _ _.
End Rect.

(** The object [{ text, x, y, rotation }] pushed on [textElements]. *)
Module TextElement.
Record t `{Number} := mk { text : string; x : num; y : num; rotation : num }.
Arguments t {_}.
Arguments mk {_} _ _ _ _.
End TextElement.

Section Pure.
Context `{N : Number}.
Local Open Scope js_scope.

(** *** Configuration (lines 7-11) *)
Definition SVG_WIDTH : num := lit 1056.
Definition SVG_HEIGHT : num := lit 816.
Definition FONT_SIZE : num := lit 24.
Definition PADDING : num := FONT_SIZE / lit 4.
Definition MAX_ATTEMPTS : nat := 5000.

(** [text.length] as a number. *)
Definition length_of (text : string) : num :=
  lit (inject_Z (Z.of_nat (String.length text))).

(** *** [estimateBoundingBox] (lines 21-27) *)
Definition estimateBoundingBox (text : string) (fontSize : num) : Box.t :=
  let width := length_of text * fontSize * lit 0.9 + PADDING * lit 2 in
  let height := fontSize * lit 1.2 + PADDING * lit 2 in
  Box.mk width height.

(** *** [rectanglesOverlap] (lines 30-37) *)
Definition rectanglesOverlap (rect1 rect2 : Rect.t) : bool :=
  negb (
    (Rect.x rect1 + Rect.width rect1 <? Rect.x rect2) ||
    (Rect.x rect2 + Rect.width rect2 <? Rect.x rect1) ||
    (Rect.y rect1 + Rect.height rect1 <? Rect.y rect2) ||
    (Rect.y rect2 + Rect.height rect2 <? Rect.y rect1)
  ).
End Pure.

(** ** The world: random source, word arrays, counters *)

(** A reference to an array of words. *)
Definition loc := nat.

Section World.
Context `{N : Number}.

Record World := mkWorld {
  source : nat -> num;             (* the values [Math.random] will return *)
  drawn : nat;                     (* calls of [Math.random] made so far *)
  heap : gmap loc (list string);   (* the arrays of words, by reference *)
  sampled : nat;                   (* ghost: candidate positions tried *)
  layouts : nat                    (* ghost: calls of [generateSVG] *)
}.

Definition M (A : Type) : Type := World -> A * World.

Definition ret {A} (a : A) : M A := fun w => (a, w).

Definition bind {A B} (m : M A) (k : A -> M B) : M B :=
  fun w => let '(a, w') := m w in k a w'.
End World.

Declare Scope monad_scope.
Delimit Scope monad_scope with monad.
Notation "x <- m ;; k" := (bind m (fun x => k))
  (at level 100, m at next level, right associativity) : monad_scope.
Notation "m ;;; k" := (bind m (fun _ => k))
  (at level 100, right associativity) : monad_scope.

Section Effects.
Context `{N : Number}.
Local Open Scope monad_scope.

(** [Math.random()] *)
Definition Math_random : M num := fun w =>
  (source w (drawn w),
   mkWorld (source w) (S (drawn w)) (heap w) (sampled w) (layouts w)).

Definition set_heap (h : gmap loc (list string)) : M unit := fun w =>
  (tt, mkWorld (source w) (drawn w) h (sampled w) (layouts w)).

Definition count_sample : M unit := fun w =>
  (tt, mkWorld (source w) (drawn w) (heap w) (S (sampled w)) (layouts w)).

Definition count_layout : M unit := fun w =>
  (tt, mkWorld (source w) (drawn w) (heap w) (sampled w) (S (layouts w))).

(** The elements of the array behind a reference. *)
Definition array_get (a : loc) : M (list string) := fun w =>
  (default [] (heap w !! a), w).

(** [[...a]]: a new array with the elements of [a]. *)
Definition array_spread (a : loc) : M loc := fun w =>
  let copy := fresh (dom (heap w)) in
  (copy, snd (set_heap (<[copy := default [] (heap w !! a)]> (heap w)) w)).

(** *** [Array.prototype.sort]

    The engine's sort is not part of the repository.  It rearranges the
    array in place, calling the comparator on pairs of elements in an
    order of its own choosing, and returns the same reference.  The model
    is an insertion sort, as engines run on short arrays: each element
    moves left past every predecessor that the comparator orders after it
    ([order > 0]).  The sorted prefix is held nearest neighbour first.
    The comparator of the program ignores its arguments, so the algorithm
    only decides how many draws the shuffle makes and which permutation
    comes out. *)
Fixpoint insertion {A} (comparefn : A -> A -> M num) (element : A)
    (before : list A) : M (list A) :=
  match before with
  | [] => ret [element]
  | tmp :: rest =>
      order <- comparefn tmp element ;;
      if (lit 0 <? order)%js
      then moved <- insertion comparefn element rest ;; ret (tmp :: moved)
      else ret (element :: tmp :: rest)
  end.

Fixpoint insertionSort {A} (comparefn : A -> A -> M num)
    (before todo : list A) : M (list A) :=
  match todo with
  | [] => ret (rev before)
  | element :: todo' =>
      before' <- insertion comparefn element before ;;
      insertionSort comparefn before' todo'
  end.

Definition array_sort (a : loc) (comparefn : string -> string -> M num)
    : M loc :=
  elements <- array_get a ;;
  sorted <- insertionSort comparefn [] elements ;;
  (fun w => set_heap (<[a := sorted]> (heap w)) w) ;;;
  ret a.

(** *** [findNonOverlappingPosition] (lines 40-68)

    [attempts] is the number of iterations the [for] loop has left. *)
Fixpoint findPosition (attempts : nat) (boundingBox : Box.t)
    (placedRectangles : list Rect.t) (width height : num)
    : M (option Rect.t) :=
  match attempts with
  | O => ret None
  | S attempts' =>
      r1 <- Math_random ;;
      let x := (r1 * (width - Box.width boundingBox))%js in
      r2 <- Math_random ;;
      let y := (r2 * (height - Box.height boundingBox))%js in
      count_sample ;;;
      let newRect :=
        Rect.mk x y (Box.width boundingBox) (Box.height boundingBox) in
      let overlaps :=
        existsb (fun rect => rectanglesOverlap newRect rect)
                placedRectangles in
      if negb overlaps then ret (Some newRect)
      else findPosition attempts' boundingBox placedRectangles width height
  end.

Definition findNonOverlappingPosition (boundingBox : Box.t)
    (placedRectangles : list Rect.t) (width height : num)
    : M (option Rect.t) :=
  findPosition MAX_ATTEMPTS boundingBox placedRectangles width height.
End Effects.

(** ** [generateSVG] and [main] *)

(** What a call completes with: a returned value or a thrown [Error],
    which carries its message. *)
Inductive Completion (A : Type) : Type :=
| Return : A -> Completion A
| Throw : string -> Completion A.
Arguments Return {A} _.
Arguments Throw {A} _.

Section Layout.
Context `{N : Number}.
Local Open Scope monad_scope.

(** The document of lines 118-140 is a rendering of [textElements] and of
    nothing else; it is kept as that list, without its markup. *)
Definition Svg : Type := list TextElement.t.

(** The comparator of line 77, [() => Math.random() - 0.5]. *)
Definition randomOrder (_ _ : string) : M num :=
  r <- Math_random ;; ret (r - lit 0.5)%js.

(** The [for ... of] loop of lines 79-107 over the shuffled words, with
    the three arrays it pushes on. *)
Fixpoint placeWords (shuffledWords : list string)
    (placedRectangles : list Rect.t) (textElements : list TextElement.t)
    (unplacedWords : list string)
    : M (list Rect.t * list TextElement.t * list string) :=
  match shuffledWords with
  | [] => ret (placedRectangles, textElements, unplacedWords)
  | word :: rest =>
      let boundingBox := estimateBoundingBox word FONT_SIZE in
      position <- findNonOverlappingPosition boundingBox placedRectangles
                    SVG_WIDTH SVG_HEIGHT ;;
      match position with
      | Some position =>
          let placedRectangles := (placedRectangles ++ [position])%list in
          let textX :=
            (Rect.x position + Rect.width position / lit 2)%js in
          let textY :=
            (Rect.y position + Rect.height position / lit 2
             + FONT_SIZE / lit 3)%js in
          r <- Math_random ;;
          let rotation := ((r - lit 0.5) * lit 30)%js in
          placeWords rest placedRectangles
            (textElements ++ [TextElement.mk word textX textY rotation])%list
            unplacedWords
      | None =>
          placeWords rest placedRectangles textElements
            (unplacedWords ++ [word])%list
      end
  end.

(** Lines 76-107: the copy, the shuffle and the loop. *)
Definition layoutPass (words : loc)
    : M (list Rect.t * list TextElement.t * list string) :=
  copy <- array_spread words ;;
  shuffledWords <- array_sort copy randomOrder ;;
  shuffled <- array_get shuffledWords ;;
  placeWords shuffled [] [] [].

(** The message of the [Error] of lines 111-115. *)
Definition failureMessage (unplacedWords : list string) : string :=
  "Failed to place " ++ pretty (length unplacedWords) ++ " word(s): "
  ++ String.concat ", " unplacedWords ++ ". "
  ++ "Try reducing font size or increasing canvas size.".

(** [generateSVG] (lines 71-141) *)
Definition generateSVG (words : loc) : M (Completion Svg) :=
  count_layout ;;;
  result <- layoutPass words ;;
  let '(_, textElements, unplacedWords) := result in
  if (0 <? length unplacedWords)%nat
  then ret (Throw (failureMessage unplacedWords))
  else ret (Return textElements).

(** How the process ends: the document is written ([undefined] when the
    loop was left with [svg] unassigned), or [process.exit] was called
    after [console.error]. *)
Inductive Outcome : Type :=
| Written : option Svg -> Outcome
| Exited : Z -> string -> Outcome.

Definition maxRetries : nat := 10.

(** The [while] loop of lines 169-182; [None] when [fuel] iterations did
    not finish it. *)
Fixpoint retryLoop (fuel : nat) (words : loc) (attempts : nat)
    : M (option Outcome) :=
  match fuel with
  | O => ret None
  | S fuel' =>
      if (attempts <? maxRetries)%nat then
        completion <- generateSVG words ;;
        match completion with
        | Return svg => ret (Some (Written (Some svg)))
        | Throw message =>
            let attempts := S attempts in
            if (maxRetries <=? attempts)%nat
            then ret (Some (Exited 1
                   ("Failed after " ++ pretty maxRetries ++ " attempts: "
                    ++ message)))
            else retryLoop fuel' words attempts
        end
      else ret (Some (Written None))
  end.

(** [main] (lines 154-190), from the array [readWords] returned on. *)
Definition main (words : loc) : M (option Outcome) :=
  retryLoop maxRetries words 0.
End Layout.

(** ** [escapeXml], [readWords] and the whole of [main] *)

(** [text.replace(/c/g, replacement)] for a pattern of one character and a
    replacement without dollar sign: every occurrence is replaced, left
    to right, and the replacement is not searched again. *)
Fixpoint replaceAll (c : ascii) (replacement text : string) : string :=
  match text with
  | EmptyString => EmptyString
  | String a rest =>
      if Ascii.eqb a c then replacement ++ replaceAll c replacement rest
      else String a (replaceAll c replacement rest)
  end.

(** [escapeXml] (lines 144-151); ["034"] is the double quote. *)
Definition escapeXml (text : string) : string :=
  let text := replaceAll "&" "&amp;" text in
  let text := replaceAll "<" "&lt;" text in
  let text := replaceAll ">" "&gt;" text in
  let text := replaceAll "034" "&quot;" text in
  replaceAll "'" "&apos;" text.

(** [content.split(sep)] for a separator of one character: the pieces
    between the separators, empty ones included. *)
Fixpoint split (sep : ascii) (content : string) : list string :=
  match content with
  | EmptyString => [EmptyString]
  | String c rest =>
      if Ascii.eqb c sep then EmptyString :: split sep rest
      else match split sep rest with
           | piece :: pieces => String c piece :: pieces
           | [] => [String c EmptyString]
           end
  end.






Section Program.
Context `{N : Number}.
Local Open Scope monad_scope.


End Program.

(** ** Vocabulary of the statements *)

Local Close Scope string_scope.

Section Vocabulary.
Context `{N : Number}.
Local Open Scope js_scope.

(** A rectangle written with literals. *)
Definition rect (x y width height : Q) : Rect.t :=
  Rect.mk (lit x) (lit y) (lit width) (lit height).

(** A box written with literals. *)
Definition box (width height : Q) : Box.t :=
  Box.mk (lit width) (lit height).

(** The four separation tests of lines 32-35. *)
Definition separated (a b : Rect.t) : Prop :=
  (Rect.x a + Rect.width a <? Rect.x b) = true \/
  (Rect.x b + Rect.width b <? Rect.x a) = true \/
  (Rect.y a + Rect.height a <? Rect.y b) = true \/
  (Rect.y b + Rect.height b <? Rect.y a) = true.

(** The rectangle that iteration [k] (from 0) of the search loop forms
    when the search starts in world [w]: it reads draws
    [drawn w + 2k] and [drawn w + 2k + 1]. *)
Definition candidate (boundingBox : Box.t) (width height : num)
    (w : World) (k : nat) : Rect.t :=
  Rect.mk
    (source w (drawn w + 2 * k)%nat * (width - Box.width boundingBox))
    (source w (drawn w + 2 * k + 1)%nat * (height - Box.height boundingBox))
    (Box.width boundingBox) (Box.height boundingBox).

(** The [some] test of lines 58-60. *)
Definition blocked (placedRectangles : list Rect.t) (newRect : Rect.t)
    : bool :=
  existsb (fun rect => rectanglesOverlap newRect rect) placedRectangles.

(** The anchor of a text element is the centre of its rectangle, lowered
    by a third of the font size (lines 92-93). *)
Definition anchored (element : TextElement.t) (position : Rect.t) : Prop :=
  TextElement.x element = Rect.x position + Rect.width position / lit 2 /\
  TextElement.y element =
    Rect.y position + Rect.height position / lit 2 + FONT_SIZE / lit 3.

(** The world after a word took candidate [k] of its search (the search
    made [k + 1] iterations, then the rotation was drawn), and after a
    word was left unplaced (all iterations made). *)
Definition afterPlaced (w : World) (k : nat) : World :=
  mkWorld (source w) (S (drawn w + 2 * S k)) (heap w)
    (sampled w + S k) (layouts w).

Definition afterUnplaced (w : World) : World :=
  mkWorld (source w) (drawn w + 2 * MAX_ATTEMPTS) (heap w)
    (sampled w + MAX_ATTEMPTS) (layouts w).

(** The text element pushed for [word] placed at [position], candidate
    [k] of the search started in [w] (lines 92-103). *)
Definition elementAt (word : string) (position : Rect.t) (w : World)
    (k : nat) : TextElement.t :=
  TextElement.mk word
    (Rect.x position + Rect.width position / lit 2)
    (Rect.y position + Rect.height position / lit 2 + FONT_SIZE / lit 3)
    ((source w (drawn w + 2 * S k)%nat - lit 0.5) * lit 30).

(** No two rectangles of a list overlap. *)
Definition disjoint (placedRectangles : list Rect.t) : Prop :=
  forall i j a b, i <> j ->
    placedRectangles !! i = Some a -> placedRectangles !! j = Some b ->
    rectanglesOverlap a b = false.

(** The world in which attempt [k] (from 0) of [main] starts, when the
    attempts before it all failed. *)
Definition attemptWorld (words : loc) (k : nat) (w : World) : World :=
  Nat.iter k (fun w => snd (generateSVG words w)) w.

(** Attempt [i] of [main], started in [w], throws. *)
Definition failsAt (words : loc) (w : World) (i : nat) : Prop :=
  exists message,
    fst (generateSVG words (attemptWorld words i w)) = Throw message.

(** What [main] prints on [console.error] for the unplaced words of its
    last attempt (line 177). *)
Definition finalReport (unplacedWords : list string) : string :=
  ("Failed after " ++ pretty maxRetries ++ " attempts: "
   ++ failureMessage unplacedWords)%string.

(** The three arrays at the end of the loop of a call of [generateSVG]
    made in world [w]. *)
Definition rectanglesOf (words : loc) (w : World) : list Rect.t :=
  fst (fst (fst (layoutPass words (snd (count_layout w))))).

Definition elementsOf (words : loc) (w : World) : list TextElement.t :=
  snd (fst (fst (layoutPass words (snd (count_layout w))))).

Definition unplacedOf (words : loc) (w : World) : list string :=
  snd (fst (layoutPass words (snd (count_layout w)))).
End Vocabulary.



(** A source whose draws are in [[0, 1)], as those of [Math.random] are. *)
Definition unitSource (w : World (N:=Exact)) : Prop :=
  forall i, (0 <= source w i /\ source w i < 1)%Q.

(** ** Vocabulary for [escapeXml] and [readWords] *)

(** What [escapeXml] turns one character into. *)
Definition escapeChar (c : ascii) : string :=
  if Ascii.eqb c "&" then "&amp;"%string
  else if Ascii.eqb c "<" then "&lt;"%string
  else if Ascii.eqb c ">" then "&gt;"%string
  else if Ascii.eqb c "034" then "&quot;"%string
  else if Ascii.eqb c "'" then "&apos;"%string
  else String c EmptyString.

(** One of the five characters that [escapeXml] replaces. *)
Definition isSpecial (c : ascii) : bool :=
  Ascii.eqb c "&" || Ascii.eqb c "<" || Ascii.eqb c ">"
  || Ascii.eqb c "034" || Ascii.eqb c "'".

(** The reader of the five entities. *)
Fixpoint unescapeXml (text : string) : string :=
  match text with
  | String "&" (String "a" (String "m" (String "p" (String ";" rest)))) =>
      String "&" (unescapeXml rest)
  | String "&" (String "l" (String "t" (String ";" rest))) =>
      String "<" (unescapeXml rest)
  | String "&" (String "g" (String "t" (String ";" rest))) =>
      String ">" (unescapeXml rest)
  | String "&" (String "q" (String "u" (String "o" (String "t"
      (String ";" rest))))) =>
      String "034" (unescapeXml rest)
  | String "&" (String "a" (String "p" (String "o" (String "s"
      (String ";" rest))))) =>
      String "'" (unescapeXml rest)
  | String c rest => String c (unescapeXml rest)
  | EmptyString => EmptyString
  end.

(** The characters of a string. *)
Fixpoint chars (text : string) : list ascii :=
  match text with
  | EmptyString => []
  | String c rest => c :: chars rest
  end.



(** A text escaped one character after the other. *)
Fixpoint escapeEach (text : string) : string :=
  match text with
  | EmptyString => EmptyString
  | String c rest => (escapeChar c ++ escapeEach rest)%string
  end.


(** None of the characters that [escapeXml] rewrites as themselves:
    angle brackets and the two quotes. *)
Definition markupFree (text : string) : bool :=
  forallb (fun x => negb (Ascii.eqb x "<" || Ascii.eqb x ">"
                          || Ascii.eqb x "034" || Ascii.eqb x "'"))
    (chars text).

(** ** Vocabulary for text elements, in exact arithmetic *)




(** ** Worlds used as examples *)

(** The world in which every draw is [draw] and the one array, at
    reference 0, holds [ws]. *)
Definition constantWorld `{Number} (draw : Q) (ws : list string) : World :=
  mkWorld (fun _ => lit draw) 0 (<[0%nat := ws]> ∅) 0 0.

(** The world whose first draws are [draws] (and 0.5 after them). *)
Definition scriptedWorld (draws : list Q) (ws : list string)
    : World (N:=Exact) :=
  @mkWorld Exact (fun i => nth i draws 0.5%Q) 0 (<[0%nat := ws]> ∅) 0 0.

(** Two words and the draws that place them apart: one draw for the
    comparator of the shuffle, then position and rotation of each word. *)
Definition twoWordsWorld : World (N:=Exact) :=
  scriptedWorld [0.5; 0; 0; 0.5; 0.9; 0.9; 0.5]%Q ["abc"; "de"]%string.

(** A word of 49 code units: its box is 1070.4 wide. *)
Definition longWord : string :=
  "aaaaaaaaaaaaaaaaaaaaaaaaaaaaaaaaaaaaaaaaaaaaaaaaa"%string.

(** * Properties *)

(** ** The exact instance: [<] and the order of the rationals *)

Lemma Qltb_lt (a b : Q) : Qltb a b = true <-> (a < b)%Q.
Proof. unfold Qltb, Qlt. apply Z.ltb_lt. Qed.

Lemma Qltb_ge (a b : Q) : Qltb a b = false <-> (b <= a)%Q.
Proof. unfold Qltb, Qle. apply Z.ltb_ge. Qed.

(** ** The overlap test *)

(** C1, as stated, fails: on the touching pair [{0,0,10,10}],
    [{10,0,10,10}] none of the four strict comparisons holds ([10 < 10] is
    false), so [rectanglesOverlap] answers [true], in exact arithmetic and
    on doubles. *)
Lemma rectanglesOverlap_touching_true :
  rectanglesOverlap (N:=Exact) (rect 0 0 10 10) (rect 10 0 10 10) = true /\
  rectanglesOverlap (N:=Double) (rect 0 0 10 10) (rect 10 0 10 10) = true.
Proof. split; vm_compute; reflexivity. Qed.

Section OverlapFacts.
Context `{N : Number}.
Local Open Scope js_scope.

Lemma rectanglesOverlap_false (a b : Rect.t) :
  rectanglesOverlap a b = false <-> separated a b.
Proof.
  unfold rectanglesOverlap, separated.
  rewrite negb_false_iff, !orb_true_iff. tauto.
Qed.

Lemma rectanglesOverlap_sym (a b : Rect.t) :
  rectanglesOverlap a b = rectanglesOverlap b a.
Proof.
  unfold rectanglesOverlap. f_equal.
  destruct (Rect.x a + Rect.width a <? Rect.x b),
           (Rect.x b + Rect.width b <? Rect.x a),
           (Rect.y a + Rect.height a <? Rect.y b),
           (Rect.y b + Rect.height b <? Rect.y a); reflexivity.
Qed.
End OverlapFacts.

(** C2: [rectanglesOverlap a b] is [false] exactly when one of the four
    strict comparisons [a.x + a.width < b.x], [b.x + b.width < a.x],
    [a.y + a.height < b.y], [b.y + b.height < a.y] holds: for the program's
    [<] in every arithmetic, and for the order of the rationals in the
    exact one. *)
Theorem rectanglesOverlap_separation :
  (forall (N : Number) (a b : Rect.t),
     rectanglesOverlap a b = false <->
     ((Rect.x a + Rect.width a <? Rect.x b)%js = true \/
      (Rect.x b + Rect.width b <? Rect.x a)%js = true \/
      (Rect.y a + Rect.height a <? Rect.y b)%js = true \/
      (Rect.y b + Rect.height b <? Rect.y a)%js = true)) /\
  (forall a b : Rect.t (H:=Exact),
     rectanglesOverlap a b = false <->
     (Rect.x a + Rect.width a < Rect.x b \/
      Rect.x b + Rect.width b < Rect.x a \/
      Rect.y a + Rect.height a < Rect.y b \/
      Rect.y b + Rect.height b < Rect.y a)%Q).
Proof.
  split.
  - intros N a b. apply rectanglesOverlap_false.
  - intros a b. rewrite rectanglesOverlap_false. unfold separated.
    cbn [ltb add Exact]. rewrite !Qltb_lt. reflexivity.
Qed.

(** C1, amended: rectangles whose edges touch with zero gap are classified
    as overlapping, and so are rectangles one unit into each other; only a
    positive gap separates.  [rectanglesOverlap] is [true] on
    [{0,0,10,10}], [{10,0,10,10}] and on [{0,0,10,10}], [{9,0,10,10}], and
    [false] on [{0,0,10,10}], [{11,0,10,10}] (exact arithmetic and
    doubles); in exact arithmetic it is [true] exactly when the closed
    intervals of the two rectangles meet on both axes. *)
Theorem rectanglesOverlap_boundary :
  rectanglesOverlap (N:=Exact) (rect 0 0 10 10) (rect 10 0 10 10) = true /\
  rectanglesOverlap (N:=Exact) (rect 0 0 10 10) (rect 9 0 10 10) = true /\
  rectanglesOverlap (N:=Exact) (rect 0 0 10 10) (rect 11 0 10 10) = false /\
  rectanglesOverlap (N:=Double) (rect 0 0 10 10) (rect 10 0 10 10) = true /\
  rectanglesOverlap (N:=Double) (rect 0 0 10 10) (rect 9 0 10 10) = true /\
  rectanglesOverlap (N:=Double) (rect 0 0 10 10) (rect 11 0 10 10) = false /\
  (forall a b : Rect.t (H:=Exact),
     rectanglesOverlap a b = true <->
     (Rect.x b <= Rect.x a + Rect.width a /\
      Rect.x a <= Rect.x b + Rect.width b /\
      Rect.y b <= Rect.y a + Rect.height a /\
      Rect.y a <= Rect.y b + Rect.height b)%Q).
Proof.
  repeat (split; [vm_compute; reflexivity|]).
  intros a b. unfold rectanglesOverlap.
  rewrite negb_true_iff, !orb_false_iff. cbn [ltb add Exact].
  rewrite !Qltb_ge. tauto.
Qed.

(** ** The estimator *)

(** C4, as stated, fails: at font size 12 the padding is still 6, not
    [12/4 = 3].  The box of ["abc"] is 44.4 by 26.4, where the claimed
    formulas give 38.4 by 20.4. *)
Lemma estimateBoundingBox_padding_fixed :
  (Box.width (estimateBoundingBox (N:=Exact) "abc" 12) == 44.4 /\
   Box.height (estimateBoundingBox (N:=Exact) "abc" 12) == 26.4 /\
   3 * 12 * 0.9 + 2 * (12 / 4) == 38.4 /\
   12 * 1.2 + 2 * (12 / 4) == 20.4)%Q /\
  estimateBoundingBox (N:=Double) "abc" (lit 12)
    = Box.mk (lit 44.4) (lit 26.4) /\
  (lit 3 * lit 12 * lit 0.9 + lit 2 * (lit 12 / lit 4))%js
    = lit (Number:=Double) 38.4.
Proof. repeat split; vm_compute; reflexivity. Qed.

(** C4, amended: for every token [t] and font size [f] the estimator
    returns width [length(t) * f * 0.9 + 2 * PADDING] and height
    [f * 1.2 + 2 * PADDING], where [PADDING] is the constant
    [FONT_SIZE / 4 = 6] whatever [f] is (it is [f/4] at [f = 24], the one
    font size the program passes); [estimate("abc", 24)] is 76.8 by 40.8,
    in exact arithmetic and on doubles.  The estimator is a total function
    of its two arguments. *)
Theorem estimateBoundingBox_formula :
  (forall (N : Number) (t : string) (f : num),
     estimateBoundingBox t f
     = Box.mk (length_of t * f * lit 0.9 + lit 24 / lit 4 * lit 2)%js
              (f * lit 1.2 + lit 24 / lit 4 * lit 2)%js) /\
  (forall (t : string) (f : Q),
     Box.width (estimateBoundingBox (N:=Exact) t f)
       == inject_Z (Z.of_nat (String.length t)) * f * 0.9 + 2 * 6 /\
     Box.height (estimateBoundingBox (N:=Exact) t f) == f * 1.2 + 2 * 6)%Q /\
  (Box.width (estimateBoundingBox (N:=Exact) "abc" 24) == 76.8 /\
   Box.height (estimateBoundingBox (N:=Exact) "abc" 24) == 40.8)%Q /\
  estimateBoundingBox (N:=Double) "abc" (lit 24)
    = Box.mk (lit 76.8) (lit 40.8).
Proof.
  split; [reflexivity|].
  split.
  - intros t f. unfold estimateBoundingBox, length_of, PADDING, FONT_SIZE.
    cbn [Box.width Box.height add mul div lit Exact]. split; field.
  - split; [split|]; vm_compute; reflexivity.
Qed.

(** ** The placement search *)

Section SearchFacts.
Context `{N : Number}.

Lemma bind_run {A B} (m : M A) (k : A -> M B) (w : World) :
  bind m k w = k (fst (m w)) (snd (m w)).
Proof. unfold bind. destruct (m w). reflexivity. Qed.

Lemma candidate_shift boundingBox width height w k :
  candidate boundingBox width height
    (mkWorld (source w) (S (S (drawn w))) (heap w) (S (sampled w))
       (layouts w)) k
  = candidate boundingBox width height w (S k).
Proof.
  unfold candidate. cbn [source drawn].
  replace (S (S (drawn w)) + 2 * k)%nat with (drawn w + 2 * S k)%nat by lia.
  replace (drawn w + 2 * S k + 1)%nat with (S (drawn w + 2 * S k)) by lia.
  replace (drawn w + 2 * S k + 1)%nat with (S (drawn w + 2 * S k)) by lia.
  reflexivity.
Qed.

(** What the search returns, and the world it leaves: the first candidate
    that no placed rectangle blocks, or nothing when all are blocked. *)
Lemma findPosition_spec attempts boundingBox placedRectangles width height w :
  match findPosition attempts boundingBox placedRectangles width height w
  with
  | (Some r, w') =>
      exists k, (k < attempts)%nat /\
        r = candidate boundingBox width height w k /\
        blocked placedRectangles r = false /\
        (forall j, (j < k)%nat ->
           blocked placedRectangles
             (candidate boundingBox width height w j) = true) /\
        w' = mkWorld (source w) (drawn w + 2 * S k) (heap w)
               (sampled w + S k) (layouts w)
  | (None, w') =>
      (forall j, (j < attempts)%nat ->
         blocked placedRectangles
           (candidate boundingBox width height w j) = true) /\
      w' = mkWorld (source w) (drawn w + 2 * attempts) (heap w)
             (sampled w + attempts) (layouts w)
  end.
Proof.
  revert w. induction attempts as [|n IH]; intros w.
  - cbn. split; [intros j Hj; lia|].
    destruct w; cbn. f_equal; lia.
  - cbn [findPosition]. unfold bind, Math_random, count_sample.
    cbn [source drawn heap sampled layouts].
    set (newRect := Rect.mk _ _ _ _).
    assert (HnewRect : newRect = candidate boundingBox width height w 0).
    { unfold newRect, candidate.
      replace (drawn w + 2 * 0)%nat with (drawn w) by lia.
      replace (drawn w + 1)%nat with (S (drawn w)) by lia. reflexivity. }
    fold (blocked placedRectangles newRect).
    destruct (blocked placedRectangles newRect) eqn:Hblocked; cbn [negb].
    + specialize (IH (mkWorld (source w) (S (S (drawn w))) (heap w)
                        (S (sampled w)) (layouts w))).
      destruct (findPosition n _ _ _ _ _) as [[r|] w'].
      * destruct IH as (k & Hk & Hr & Hfree & Hbefore & Hw').
        exists (S k). rewrite candidate_shift in Hr.
        split; [lia|]. split; [exact Hr|]. split; [exact Hfree|].
        split.
        -- intros [|j] Hj; [rewrite <- HnewRect; exact Hblocked|].
           rewrite <- candidate_shift. apply Hbefore. lia.
        -- rewrite Hw'. cbn [source drawn heap sampled layouts].
           f_equal; lia.
      * destruct IH as (Hall & Hw'). split.
        -- intros [|j] Hj; [rewrite <- HnewRect; exact Hblocked|].
           rewrite <- candidate_shift. apply Hall. lia.
        -- rewrite Hw'. cbn [source drawn heap sampled layouts].
           f_equal; lia.
    + exists 0%nat. split; [lia|]. split; [exact HnewRect|].
      split; [exact Hblocked|]. split; [intros j Hj; lia|].
      cbn [ret]. f_equal; lia.
Qed.
End SearchFacts.

(** ** The shuffle *)

Section ShuffleFacts.
Context `{N : Number}.

(** Whatever the comparator answers, insertion keeps the elements. *)
Lemma insertion_perm {A} (comparefn : A -> A -> M num) element before w :
  fst (insertion comparefn element before w) ≡ₚ element :: before.
Proof.
  revert w. induction before as [|tmp rest IH]; intros w; [reflexivity|].
  cbn [insertion]. rewrite bind_run.
  destruct (lit 0 <? fst (comparefn tmp element w))%js; [|reflexivity].
  rewrite bind_run. cbn [ret fst]. rewrite IH. apply Permutation_swap.
Qed.

Lemma insertionSort_perm {A} (comparefn : A -> A -> M num) before todo w :
  fst (insertionSort comparefn before todo w) ≡ₚ before ++ todo.
Proof.
  revert before w. induction todo as [|element todo IH]; intros before w.
  - cbn. rewrite app_nil_r. symmetry. apply Permutation_rev.
  - cbn [insertionSort]. rewrite bind_run, IH, insertion_perm.
    apply Permutation_middle.
Qed.

(** The comparator of the shuffle only draws. *)
Lemma insertion_randomOrder_world element before w :
  exists d,
    snd (insertion randomOrder element before w)
    = mkWorld (source w) (drawn w + d) (heap w) (sampled w) (layouts w).
Proof.
  revert w. induction before as [|tmp rest IH]; intros w.
  - exists 0%nat. destruct w. cbn. f_equal. lia.
  - cbn [insertion]. rewrite bind_run.
    set (w1 := snd (randomOrder tmp element w)).
    assert (Hw1 : w1 = mkWorld (source w) (S (drawn w)) (heap w)
                         (sampled w) (layouts w)) by reflexivity.
    destruct (lit 0 <? fst (randomOrder tmp element w))%js.
    + rewrite bind_run. cbn [ret snd]. destruct (IH w1) as [d Hd].
      exists (S d). rewrite Hd, Hw1. cbn. f_equal. lia.
    + exists 1%nat. cbn [ret snd]. rewrite Hw1. f_equal. lia.
Qed.

Lemma insertionSort_randomOrder_world before todo w :
  exists d,
    snd (insertionSort randomOrder before todo w)
    = mkWorld (source w) (drawn w + d) (heap w) (sampled w) (layouts w).
Proof.
  revert before w. induction todo as [|element todo IH]; intros before w.
  - exists 0%nat. destruct w. cbn. f_equal. lia.
  - cbn [insertionSort]. rewrite bind_run.
    destruct (insertion_randomOrder_world element before w) as [d1 Hd1].
    destruct (IH (fst (insertion randomOrder element before w))
                 (snd (insertion randomOrder element before w)))
      as [d2 Hd2].
    exists (d1 + d2)%nat. rewrite Hd2, Hd1. cbn. f_equal. lia.
Qed.

(** The layout pass sorts a fresh copy: the loop runs over a permutation
    of the words, in a world whose heap has that one new array. *)
Lemma layoutPass_shuffle (words : loc) (w : World) :
  exists shuffled d,
    shuffled ≡ₚ default [] (heap w !! words) /\
    layoutPass words w
    = placeWords shuffled [] [] []
        (mkWorld (source w) (drawn w + d)
           (<[fresh (dom (heap w)) := shuffled]> (heap w))
           (sampled w) (layouts w)).
Proof.
  set (elements := default [] (heap w !! words)).
  set (copy := fresh (dom (heap w))).
  set (w1 := mkWorld (source w) (drawn w) (<[copy := elements]> (heap w))
               (sampled w) (layouts w)).
  destruct (insertionSort_randomOrder_world [] elements w1) as [d Hd].
  exists (fst (insertionSort randomOrder [] elements w1)), d.
  split; [apply (insertionSort_perm randomOrder [] elements w1)|].
  unfold layoutPass, array_sort, array_spread, array_get, set_heap.
  rewrite !bind_run. cbn [fst snd source drawn heap sampled layouts ret].
  fold copy elements. fold w1.
  rewrite !lookup_insert_eq. cbn [default from_option id].
  rewrite Hd. unfold w1. cbn [fst snd source drawn heap sampled layouts].
  rewrite insert_insert_eq. reflexivity.
Qed.
End ShuffleFacts.

(** ** The loop over the shuffled words *)

Section LoopFacts.
Context `{N : Number}.

Lemma MAX_ATTEMPTS_pos : (0 < MAX_ATTEMPTS)%nat.
Proof. apply Nat.ltb_lt. vm_compute. reflexivity. Qed.

(** One iteration: the word takes the first free candidate, or is left
    unplaced when every candidate is blocked. *)
Lemma placeWords_step word rest placedRectangles textElements unplacedWords w :
  let boundingBox := estimateBoundingBox word FONT_SIZE in
  (exists k,
     (k < MAX_ATTEMPTS)%nat /\
     blocked placedRectangles
       (candidate boundingBox SVG_WIDTH SVG_HEIGHT w k) = false /\
     placeWords (word :: rest) placedRectangles textElements unplacedWords w
     = placeWords rest
         (placedRectangles
            ++ [candidate boundingBox SVG_WIDTH SVG_HEIGHT w k])%list
         (textElements
            ++ [elementAt word
                  (candidate boundingBox SVG_WIDTH SVG_HEIGHT w k) w k])%list
         unplacedWords (afterPlaced w k)) \/
  ((forall j, (j < MAX_ATTEMPTS)%nat ->
      blocked placedRectangles
        (candidate boundingBox SVG_WIDTH SVG_HEIGHT w j) = true) /\
   placeWords (word :: rest) placedRectangles textElements unplacedWords w
   = placeWords rest placedRectangles textElements
       (unplacedWords ++ [word])%list (afterUnplaced w)).
Proof.
  intros boundingBox. cbn [placeWords]. fold boundingBox.
  rewrite bind_run. unfold findNonOverlappingPosition.
  pose proof (findPosition_spec MAX_ATTEMPTS boundingBox placedRectangles
                SVG_WIDTH SVG_HEIGHT w) as Hspec.
  destruct (findPosition MAX_ATTEMPTS boundingBox placedRectangles
              SVG_WIDTH SVG_HEIGHT w) as [[r|] w'];
    cbn [fst snd].
  - destruct Hspec as (k & Hk & Hr & Hfree & _ & Hw'). left. exists k.
    split; [exact Hk|]. split; [rewrite <- Hr; exact Hfree|].
    rewrite bind_run. subst r w'. reflexivity.
  - destruct Hspec as (Hall & Hw'). right. split; [exact Hall|].
    subst w'. reflexivity.
Qed.

(** The invariant rule of the loop. *)
Lemma placeWords_invariant
    (I : list string -> list Rect.t -> list TextElement.t -> list string
         -> World -> Prop) :
  (forall word rest placedRectangles textElements unplacedWords w k,
     I (word :: rest) placedRectangles textElements unplacedWords w ->
     (k < MAX_ATTEMPTS)%nat ->
     blocked placedRectangles
       (candidate (estimateBoundingBox word FONT_SIZE)
          SVG_WIDTH SVG_HEIGHT w k) = false ->
     I rest
       (placedRectangles
          ++ [candidate (estimateBoundingBox word FONT_SIZE)
                SVG_WIDTH SVG_HEIGHT w k])%list
       (textElements
          ++ [elementAt word
                (candidate (estimateBoundingBox word FONT_SIZE)
                   SVG_WIDTH SVG_HEIGHT w k) w k])%list
       unplacedWords (afterPlaced w k)) ->
  (forall word rest placedRectangles textElements unplacedWords w,
     I (word :: rest) placedRectangles textElements unplacedWords w ->
     I rest placedRectangles textElements (unplacedWords ++ [word])%list
       (afterUnplaced w)) ->
  forall shuffledWords placedRectangles textElements unplacedWords w,
    I shuffledWords placedRectangles textElements unplacedWords w ->
    exists placed' elements' unplaced' w',
      placeWords shuffledWords placedRectangles textElements
        unplacedWords w = (placed', elements', unplaced', w') /\
      I [] placed' elements' unplaced' w'.
Proof.
  intros Hplaced Hunplaced shuffledWords.
  induction shuffledWords as [|word rest IH];
    intros placedRectangles textElements unplacedWords w HI.
  - exists placedRectangles, textElements, unplacedWords, w.
    split; [reflexivity|exact HI].
  - destruct (placeWords_step word rest placedRectangles textElements
                unplacedWords w) as [(k & Hk & Hfree & ->)|(_ & ->)].
    + apply IH. apply Hplaced; assumption.
    + apply IH. apply Hunplaced; assumption.
Qed.
End LoopFacts.

(** ** Invariants of the loop *)

Section InvariantFacts.
Context `{N : Number}.

Lemma blocked_false placedRectangles newRect :
  blocked placedRectangles newRect = false <->
  forall rect, rect ∈ placedRectangles ->
    rectanglesOverlap newRect rect = false.
Proof.
  unfold blocked. induction placedRectangles as [|r l IH]; cbn [existsb].
  - split; [intros _ rect Hin; inversion Hin|reflexivity].
  - rewrite orb_false_iff, IH. split.
    + intros [Hr Hl] rect Hin. apply elem_of_cons in Hin as [->|Hin]; auto.
    + intros Hall. split; [apply Hall; left|].
      intros rect Hin. apply Hall. right. exact Hin.
Qed.

Lemma disjoint_snoc placedRectangles newRect :
  disjoint placedRectangles ->
  blocked placedRectangles newRect = false ->
  disjoint (placedRectangles ++ [newRect]).
Proof.
  intros Hdisjoint Hfree i j a b Hij Ha Hb.
  rewrite blocked_false in Hfree.
  apply lookup_app_Some in Ha as [Ha|[Hi Ha]];
    apply lookup_app_Some in Hb as [Hb|[Hj Hb]].
  - exact (Hdisjoint i j a b Hij Ha Hb).
  - apply list_lookup_singleton_Some in Hb as [_ <-].
    rewrite rectanglesOverlap_sym. apply Hfree.
    apply list_elem_of_lookup. exists i. exact Ha.
  - apply list_lookup_singleton_Some in Ha as [_ <-].
    apply Hfree. apply list_elem_of_lookup. exists j. exact Hb.
  - apply list_lookup_singleton_Some in Ha as [Hi' _].
    apply list_lookup_singleton_Some in Hb as [Hj' _]. lia.
Qed.

(** No two rectangles that the loop places overlap. *)
Lemma placeWords_disjoint shuffledWords w :
  disjoint (fst (fst (fst (placeWords shuffledWords [] [] [] w)))).
Proof.
  destruct (placeWords_invariant
              (fun _ placedRectangles _ _ _ => disjoint placedRectangles))
    with (shuffledWords := shuffledWords) (placedRectangles := @nil Rect.t)
         (textElements := @nil TextElement.t) (unplacedWords := @nil string)
         (w := w)
    as (placed' & elements' & unplaced' & w' & -> & Hinv).
  - intros word rest placedRectangles _ _ w1 k Hdisjoint _ Hfree.
    apply disjoint_snoc; assumption.
  - intros word rest placedRectangles _ _ w1 Hdisjoint. exact Hdisjoint.
  - intros i j a b _ Ha. rewrite lookup_nil in Ha. discriminate.
  - exact Hinv.
Qed.

(** The world the loop leaves: it only draws and samples, at most
    [MAX_ATTEMPTS] candidates a word. *)
Lemma placeWords_world shuffledWords w :
  let w' := snd (placeWords shuffledWords [] [] [] w) in
  source w' = source w /\ heap w' = heap w /\ layouts w' = layouts w /\
  (drawn w <= drawn w')%nat /\ (sampled w <= sampled w')%nat /\
  (sampled w' <= sampled w + length shuffledWords * MAX_ATTEMPTS)%nat.
Proof.
  destruct (placeWords_invariant
              (fun remaining _ _ _ w1 =>
                 source w1 = source w /\ heap w1 = heap w /\
                 layouts w1 = layouts w /\
                 (drawn w <= drawn w1)%nat /\ (sampled w <= sampled w1)%nat /\
                 (sampled w1 + length remaining * MAX_ATTEMPTS
                  <= sampled w + length shuffledWords * MAX_ATTEMPTS)%nat))
    with (shuffledWords := shuffledWords) (placedRectangles := @nil Rect.t)
         (textElements := @nil TextElement.t) (unplacedWords := @nil string)
         (w := w)
    as (placed' & elements' & unplaced' & w' & -> & Hinv).
  - intros word rest _ _ _ w1 k (Hs & Hh & Hl & Hd & Hlo & Hhi) Hk _.
    cbn [afterPlaced source heap layouts drawn sampled].
    cbn [length] in Hhi. repeat split; try assumption; lia.
  - intros word rest _ _ _ w1 (Hs & Hh & Hl & Hd & Hlo & Hhi).
    cbn [afterUnplaced source heap layouts drawn sampled].
    cbn [length] in Hhi. repeat split; try assumption; lia.
  - repeat split; lia.
  - cbn [snd length] in *. destruct Hinv as (Hs & Hh & Hl & Hd & Hlo & Hhi).
    repeat split; try assumption; lia.
Qed.

(** Every word ends in exactly one of the two arrays; the text elements
    keep the texts, in the order of the loop, each anchored in the
    rectangle pushed with it. *)
Lemma placeWords_texts shuffledWords w :
  let '(placed', elements', unplaced', _) :=
    placeWords shuffledWords [] [] [] w in
  map TextElement.text elements' ++ unplaced' ≡ₚ shuffledWords /\
  (unplaced' = [] -> map TextElement.text elements' = shuffledWords) /\
  Forall2 anchored elements' placed'.
Proof.
  destruct (placeWords_invariant
              (fun remaining placedRectangles textElements unplacedWords _ =>
                 map TextElement.text textElements ++ unplacedWords
                   ++ remaining ≡ₚ shuffledWords /\
                 (unplacedWords = [] ->
                  map TextElement.text textElements ++ remaining
                  = shuffledWords) /\
                 Forall2 anchored textElements placedRectangles))
    with (shuffledWords := shuffledWords) (placedRectangles := @nil Rect.t)
         (textElements := @nil TextElement.t) (unplacedWords := @nil string)
         (w := w)
    as (placed' & elements' & unplaced' & w' & -> & Hinv).
  - intros word rest placedRectangles textElements unplacedWords w1 k
      (Hperm & Hsame & Hanchored) _ _.
    rewrite map_app. cbn [map elementAt TextElement.text].
    split; [|split].
    + rewrite <- Hperm, <- !app_assoc. cbn [app].
      apply Permutation_app_head. apply Permutation_middle.
    + intros Hnil. rewrite <- (Hsame Hnil), <- app_assoc. reflexivity.
    + apply Forall2_app; [exact Hanchored|].
      constructor; [|constructor]. split; reflexivity.
  - intros word rest placedRectangles textElements unplacedWords w1
      (Hperm & Hsame & Hanchored).
    split; [|split].
    + rewrite <- Hperm, <- !app_assoc. reflexivity.
    + intros Hnil. destruct unplacedWords; discriminate.
    + exact Hanchored.
  - split; [reflexivity|]. split; [reflexivity|constructor].
  - destruct Hinv as (Hperm & Hsame & Hanchored).
    rewrite !app_nil_r in *. auto.
Qed.
End InvariantFacts.

(** ** One call of [generateSVG] *)

Section CallFacts.
Context `{N : Number}.

(** The call throws exactly when a word was left unplaced. *)
Lemma generateSVG_run words w :
  generateSVG words w
  = (if (0 <? length (unplacedOf words w))%nat
     then Throw (failureMessage (unplacedOf words w))
     else Return (elementsOf words w),
     snd (layoutPass words (snd (count_layout w)))).
Proof.
  unfold generateSVG, unplacedOf, elementsOf. rewrite !bind_run.
  destruct (layoutPass words (snd (count_layout w)))
    as [[[placed' elements'] unplaced'] w'].
  cbn [fst snd]. destruct (0 <? length unplaced')%nat; reflexivity.
Qed.

Lemma generateSVG_Return words w svg w' :
  generateSVG words w = (Return svg, w') ->
  unplacedOf words w = [] /\ elementsOf words w = svg.
Proof.
  rewrite generateSVG_run. destruct (unplacedOf words w) as [|u l].
  - cbn. intros [= <- _]. split; reflexivity.
  - cbn. intros [=].
Qed.

Lemma generateSVG_Throw words w message w' :
  generateSVG words w = (Throw message, w') ->
  unplacedOf words w <> [] /\
  message = failureMessage (unplacedOf words w).
Proof.
  rewrite generateSVG_run. destruct (unplacedOf words w) as [|u l].
  - cbn. intros [=].
  - cbn [length Nat.ltb Nat.leb]. intros [= <- _].
    split; [discriminate|reflexivity].
Qed.

(** The array the loop of a call runs over: a permutation of the words,
    stored in a fresh array. *)
Lemma generateSVG_shuffle words w ws :
  heap w !! words = Some ws ->
  exists shuffled,
    shuffled ≡ₚ ws /\
    fresh (dom (heap w)) <> words /\
    heap (snd (generateSVG words w))
    = <[fresh (dom (heap w)) := shuffled]> (heap w) /\
    map TextElement.text (elementsOf words w) ++ unplacedOf words w
      ≡ₚ shuffled /\
    (unplacedOf words w = [] ->
     map TextElement.text (elementsOf words w) = shuffled) /\
    Forall2 anchored (elementsOf words w) (rectanglesOf words w) /\
    disjoint (rectanglesOf words w).
Proof.
  intros Hwords. rewrite generateSVG_run.
  unfold elementsOf, unplacedOf, rectanglesOf. cbn [snd].
  destruct (layoutPass_shuffle words (snd (count_layout w)))
    as (shuffled & d & Hperm & ->).
  cbn [count_layout snd source drawn heap sampled layouts] in *.
  rewrite Hwords in Hperm. cbn [default from_option id] in Hperm.
  exists shuffled. split; [exact Hperm|].
  split.
  { intros Heq. apply (is_fresh (dom (heap w))). rewrite Heq.
    apply elem_of_dom. eexists. exact Hwords. }
  set (w1 := mkWorld _ _ _ _ _).
  pose proof (placeWords_world shuffled w1) as (_ & Hheap & _).
  pose proof (placeWords_texts shuffled w1) as Htexts.
  pose proof (placeWords_disjoint shuffled w1) as Hdisjoint.
  destruct (placeWords shuffled [] [] [] w1)
    as [[[placed' elements'] unplaced'] w'].
  cbn [fst snd] in *. destruct Htexts as (Hall & Hsame & Hanchored).
  rewrite Hheap. auto.
Qed.

(** The world a call leaves. *)
Lemma generateSVG_world words w ws :
  heap w !! words = Some ws ->
  let w' := snd (generateSVG words w) in
  source w' = source w /\ layouts w' = S (layouts w) /\
  heap w' !! words = Some ws /\
  (drawn w <= drawn w')%nat /\ (sampled w <= sampled w')%nat /\
  (sampled w' <= sampled w + length ws * MAX_ATTEMPTS)%nat.
Proof.
  intros Hwords w'.
  destruct (generateSVG_shuffle words w ws Hwords)
    as (shuffled & Hperm & Hfresh & Hheap & _).
  fold w' in Hheap. split; [|split; [|split]].
  3: { rewrite Hheap, lookup_insert_ne; [exact Hwords|exact Hfresh]. }
  all: subst w'; rewrite generateSVG_run; cbn [snd];
    destruct (layoutPass_shuffle words (snd (count_layout w)))
      as (shuffled' & d & Hperm' & ->);
    cbn [count_layout snd source drawn heap sampled layouts] in *;
    rewrite Hwords in Hperm'; cbn [default from_option id] in Hperm';
    set (w1 := mkWorld _ _ _ _ _);
    pose proof (placeWords_world shuffled' w1)
      as (Hs & _ & Hl & Hd & Hlo & Hhi);
    rewrite (Permutation_length Hperm') in Hhi;
    subst w1; cbn [source drawn heap sampled layouts] in *.
  - exact Hs.
  - exact Hl.
  - repeat split; lia.
Qed.
End CallFacts.

(** ** Candidates and the canvas, in exact arithmetic *)


(** A box wider than the canvas is sampled at non-positive [x]. *)
Lemma candidate_oversized (boundingBox : Box.t (H:=Exact)) (width height : Q)
    (w : World (N:=Exact)) (k : nat) :
  unitSource w -> (width < Box.width boundingBox)%Q ->
  (width - Box.width boundingBox
     < Rect.x (candidate boundingBox width height w k) /\
   Rect.x (candidate boundingBox width height w k) <= 0)%Q.
Proof.
  intros Hsource Hwide. unfold candidate.
  cbn [Rect.x add sub mul Exact].
  destruct (Hsource (drawn w + 2 * k)%nat) as [Hx0 Hx1].
  set (r1 := source w (drawn w + 2 * k)%nat) in *.
  split; nra.
Qed.



(** ** The retry loop *)

Section RetryFacts.
Context `{N : Number}.

Lemma attemptWorld_S words k w :
  attemptWorld words (S k) w
  = attemptWorld words k (snd (generateSVG words w)).
Proof.
  unfold attemptWorld.
  exact (Nat.iter_succ_r k (fun w => snd (generateSVG words w)) w).
Qed.

Lemma failsAt_S words w i :
  failsAt words w (S i) <-> failsAt words (snd (generateSVG words w)) i.
Proof. unfold failsAt. rewrite attemptWorld_S. reflexivity. Qed.

(** The loop, entered with [attempts] failures behind it: it ends within
    the retries that are left, on the first attempt that returns or on
    the last failure. *)
Lemma retryLoop_spec words ws fuel :
  forall attempts w,
    (attempts < maxRetries)%nat ->
    (maxRetries - attempts <= fuel)%nat ->
    heap w !! words = Some ws ->
    exists outcome w',
      retryLoop fuel words attempts w = (Some outcome, w') /\
      source w' = source w /\
      heap w' !! words = Some ws /\
      (layouts w < layouts w')%nat /\
      (layouts w' <= layouts w + (maxRetries - attempts))%nat /\
      (sampled w'
       <= sampled w
          + (maxRetries - attempts) * (length ws * MAX_ATTEMPTS))%nat /\
      (drawn w <= drawn w')%nat /\
      ((exists k svg,
          (attempts + k < maxRetries)%nat /\
          (forall i, (i < k)%nat -> failsAt words w i) /\
          generateSVG words (attemptWorld words k w) = (Return svg, w') /\
          outcome = Written (Some svg)) \/
       ((forall i, (i < maxRetries - attempts)%nat -> failsAt words w i) /\
        w' = attemptWorld words (maxRetries - attempts) w /\
        unplacedOf words
          (attemptWorld words (maxRetries - attempts - 1) w) <> [] /\
        outcome
        = Exited 1
            (finalReport
               (unplacedOf words
                  (attemptWorld words (maxRetries - attempts - 1) w))))).
Proof.
  induction fuel as [|fuel IH]; intros attempts w Hlt Hfuel Hwords;
    [lia|].
  cbn [retryLoop].
  destruct (Nat.ltb_spec attempts maxRetries) as [_|Hge]; [|lia].
  rewrite bind_run.
  pose proof (generateSVG_world words w ws Hwords)
    as (Hs1 & Hl1 & Hh1 & Hd1 & _ & Hhi1).
  destruct (generateSVG words w) as [completion w1] eqn:Hcall.
  cbn [fst snd] in *. destruct completion as [svg|message].
  - exists (Written (Some svg)), w1. split; [reflexivity|].
    repeat (split; [first [assumption|nia]|]).
    left. exists 0%nat, svg. split; [lia|]. split; [intros i Hi; lia|].
    split; [exact Hcall|reflexivity].
  - destruct (Nat.leb_spec maxRetries (S attempts)) as [Hlast|Hmore].
    + exists (Exited 1 (finalReport (unplacedOf words w))), w1.
      apply generateSVG_Throw in Hcall as Hthrow.
      destruct Hthrow as [Hunplaced ->].
      split; [reflexivity|].
      repeat (split; [first [assumption|nia]|]).
      right. replace (maxRetries - attempts)%nat with 1%nat by lia.
      split; [|split; [|split]].
      * intros i Hi. replace i with 0%nat by lia.
        eexists. change (attemptWorld words 0 w) with w.
        rewrite Hcall. reflexivity.
      * change (attemptWorld words 1 w) with (snd (generateSVG words w)).
        rewrite Hcall. reflexivity.
      * exact Hunplaced.
      * reflexivity.
    + destruct (IH (S attempts) w1) as (outcome & w' & Hrun & Hs & Hh & Hl
                                        & Hlhi & Hsam & Hd & Hcases);
        [lia|lia|exact Hh1|].
      assert (Hshift : forall k,
                attemptWorld words (S k) w = attemptWorld words k w1).
      { intros k. rewrite attemptWorld_S, Hcall. reflexivity. }
      assert (Hfails : forall i, failsAt words w (S i) <->
                                 failsAt words w1 i).
      { intros i. rewrite failsAt_S, Hcall. reflexivity. }
      assert (Hfirst : failsAt words w 0).
      { exists message. change (attemptWorld words 0 w) with w.
        rewrite Hcall. reflexivity. }
      replace (maxRetries - attempts)%nat
        with (S (maxRetries - S attempts)) by lia.
      exists outcome, w'. split; [exact Hrun|].
      split; [congruence|]. split; [exact Hh|].
      split; [lia|]. split; [lia|].
      split; [rewrite Nat.mul_succ_l; lia|]. split; [lia|].
      destruct Hcases as [(k & svg & Hk & Hbefore & Hret & ->)
                         |(Hall & Hw' & Hun & ->)].
      * left. exists (S k), svg. split; [lia|]. split.
        -- intros [|i] Hi; [exact Hfirst|]. apply Hfails, Hbefore. lia.
        -- rewrite Hshift. split; [exact Hret|reflexivity].
      * right. split.
        -- intros [|i] Hi; [exact Hfirst|]. apply Hfails, Hall. lia.
        -- rewrite Hshift.
           replace (S (maxRetries - S attempts) - 1)%nat
             with (S (maxRetries - S attempts - 1)) by lia.
           rewrite Hshift. auto.
Qed.
End RetryFacts.


(** ** What the search answers *)

Section AnswerFacts.
Context `{N : Number}.

Lemma findNonOverlappingPosition_empty boundingBox width height w :
  fst (findNonOverlappingPosition boundingBox [] width height w)
  = Some (candidate boundingBox width height w 0).
Proof.
  unfold findNonOverlappingPosition.
  pose proof (findPosition_spec MAX_ATTEMPTS boundingBox [] width height w)
    as Hspec.
  pose proof MAX_ATTEMPTS_pos as Hpos.
  destruct (findPosition MAX_ATTEMPTS boundingBox [] width height w)
    as [[r|] w']; cbn [fst].
  - destruct Hspec as (k & _ & -> & _ & Hbefore & _).
    destruct k as [|k]; [reflexivity|].
    specialize (Hbefore 0%nat ltac:(lia)). discriminate.
  - destruct Hspec as (Hall & _). specialize (Hall 0%nat Hpos).
    discriminate.
Qed.

Lemma findNonOverlappingPosition_None boundingBox placedRectangles
    width height w :
  fst (findNonOverlappingPosition boundingBox placedRectangles
         width height w) = None <->
  (forall j, (j < MAX_ATTEMPTS)%nat ->
     blocked placedRectangles
       (candidate boundingBox width height w j) = true).
Proof.
  unfold findNonOverlappingPosition.
  pose proof (findPosition_spec MAX_ATTEMPTS boundingBox placedRectangles
                width height w) as Hspec.
  destruct (findPosition MAX_ATTEMPTS boundingBox placedRectangles
              width height w) as [[r|] w']; cbn [fst].
  - destruct Hspec as (k & Hk & -> & Hfree & _).
    split; [discriminate|]. intros Hall.
    rewrite (Hall k Hk) in Hfree. discriminate.
  - destruct Hspec as (Hall & _). split; [intros _; exact Hall|reflexivity].
Qed.
End AnswerFacts.

(** * The search and the canvas *)

(** C3, as stated, fails: a box 2000 wide on the 1056 wide canvas, with no
    obstacle, is returned by the first iteration, at [x = -472] when the
    draw is 0.5 (exact arithmetic and doubles); and [generateSVG] on the
    one word [longWord] returns, with the word placed and none unplaced. *)
Lemma oversized_box_is_placed :
  (exists r,
     fst (findNonOverlappingPosition (N:=Exact) (box 2000 10) []
            (lit 1056) (lit 816) (constantWorld 0.5 []))
     = Some r /\
     Rect.x r == -472 /\ Rect.width r == 2000)%Q /\
  fst (findNonOverlappingPosition (N:=Double) (box 2000 10) []
         (lit 1056) (lit 816) (constantWorld 0.5 []))
  = Some (Rect.mk (-472)%float 403%float 2000%float 10%float) /\
  (exists element w',
     generateSVG (N:=Exact) 0%nat (constantWorld 0.5 [longWord])
     = (Return [element], w') /\
     TextElement.text element = longWord) /\
  unplacedOf (N:=Exact) 0%nat (constantWorld 0.5 [longWord]) = [].
Proof.
  split; [|split; [|split]].
  - eexists. split; [vm_compute; reflexivity|].
    split; vm_compute; reflexivity.
  - vm_compute. reflexivity.
  - eexists _, _. split; [vm_compute; reflexivity|reflexivity].
  - vm_compute. reflexivity.
Qed.

(** C3, amended: the search has no test of the box against the canvas.
    With no obstacle it returns the candidate of its first iteration,
    whatever the box; it returns nothing exactly when each of its
    [MAX_ATTEMPTS] candidates overlaps an obstacle; and for a box wider
    than the canvas, with draws in [[0, 1)], every candidate has its [x] in
    the non-positive range [(canvasWidth - width, 0]] (exact
    arithmetic). *)
Theorem findNonOverlappingPosition_oversized :
  (forall (N : Number) (boundingBox : Box.t) (width height : num)
          (w : World),
     fst (findNonOverlappingPosition boundingBox [] width height w)
     = Some (candidate boundingBox width height w 0)) /\
  (forall (N : Number) (boundingBox : Box.t)
          (placedRectangles : list Rect.t) (width height : num) (w : World),
     fst (findNonOverlappingPosition boundingBox placedRectangles
            width height w) = None <->
     (forall j, (j < MAX_ATTEMPTS)%nat ->
        blocked placedRectangles
          (candidate boundingBox width height w j) = true)) /\
  (forall (boundingBox : Box.t (H:=Exact)) (width height : Q)
          (w : World (N:=Exact)) (k : nat),
     unitSource w -> (width < Box.width boundingBox)%Q ->
     (width - Box.width boundingBox
        < Rect.x (candidate boundingBox width height w k) /\
      Rect.x (candidate boundingBox width height w k) <= 0)%Q).
Proof.
  split; [|split].
  - intros N. apply findNonOverlappingPosition_empty.
  - intros N. apply findNonOverlappingPosition_None.
  - intros boundingBox width height w k. apply candidate_oversized.
Qed.

Lemma findNonOverlappingPosition_oversized_witness :
  (1056 - 2000
     < Rect.x (candidate (N:=Exact) (box 2000 10) (lit 1056) (lit 816)
                 (constantWorld 0.5 []) 0) /\
   Rect.x (candidate (N:=Exact) (box 2000 10) (lit 1056) (lit 816)
             (constantWorld 0.5 []) 0) <= 0)%Q.
Proof.
  apply (proj2 (proj2 findNonOverlappingPosition_oversized)
           (box 2000 10) 1056%Q 816%Q (constantWorld 0.5 []) 0%nat).
  - intros i. split; vm_compute; [discriminate|reflexivity].
  - vm_compute. reflexivity.
Defined.


(** ** Draws consumed by an attempt *)

Section ProgressFacts.
Context `{N : Number}.

(** A word left unplaced costs [MAX_ATTEMPTS] samples, and every sample
    two draws. *)
Lemma placeWords_progress shuffledWords w :
  let '(_, _, unplaced', w') := placeWords shuffledWords [] [] [] w in
  (sampled w + length unplaced' * MAX_ATTEMPTS <= sampled w')%nat /\
  (drawn w + 2 * (sampled w' - sampled w) <= drawn w')%nat.
Proof.
  destruct (placeWords_invariant
              (fun _ _ _ unplacedWords w1 =>
                 (sampled w + length unplacedWords * MAX_ATTEMPTS
                  <= sampled w1)%nat /\
                 (drawn w + 2 * (sampled w1 - sampled w) <= drawn w1)%nat))
    with (shuffledWords := shuffledWords) (placedRectangles := @nil Rect.t)
         (textElements := @nil TextElement.t) (unplacedWords := @nil string)
         (w := w)
    as (placed' & elements' & unplaced' & w' & -> & Hinv).
  - intros word rest _ _ unplacedWords w1 k [Hsampled Hdrawn] _ _.
    cbn [afterPlaced sampled drawn]. split; lia.
  - intros word rest _ _ unplacedWords w1 [Hsampled Hdrawn].
    cbn [afterUnplaced sampled drawn]. rewrite length_app. cbn [length].
    split; lia.
  - cbn [length]. split; lia.
  - exact Hinv.
Qed.

Lemma generateSVG_progress words w :
  (sampled w + length (unplacedOf words w) * MAX_ATTEMPTS
   <= sampled (snd (generateSVG words w)))%nat /\
  (drawn w + 2 * (sampled (snd (generateSVG words w)) - sampled w)
   <= drawn (snd (generateSVG words w)))%nat.
Proof.
  rewrite generateSVG_run. unfold unplacedOf. cbn [snd].
  destruct (layoutPass_shuffle words (snd (count_layout w)))
    as (shuffled & d & _ & ->).
  cbn [count_layout snd source drawn heap sampled layouts].
  set (w1 := mkWorld _ _ _ _ _).
  pose proof (placeWords_progress shuffled w1) as Hprogress.
  destruct (placeWords shuffled [] [] [] w1)
    as [[[placed' elements'] unplaced'] w'].
  subst w1. cbn [fst snd sampled drawn] in *. lia.
Qed.

(** A failed attempt consumed at least [2 * MAX_ATTEMPTS] draws. *)
Lemma failsAt_draws words w i :
  failsAt words w i ->
  (drawn (attemptWorld words i w) + 2 * MAX_ATTEMPTS
   <= drawn (attemptWorld words (S i) w))%nat.
Proof.
  intros [message Hthrow].
  change (attemptWorld words (S i) w)
    with (snd (generateSVG words (attemptWorld words i w))).
  set (wi := attemptWorld words i w) in *.
  destruct (generateSVG words wi) as [completion w'] eqn:Hcall.
  cbn [fst] in Hthrow. subst completion.
  apply generateSVG_Throw in Hcall as Hunplaced.
  destruct Hunplaced as [Hunplaced _].
  pose proof (generateSVG_progress words wi) as [Hsampled Hdrawn].
  rewrite Hcall in Hsampled, Hdrawn. cbn [snd] in *.
  destruct (unplacedOf words wi) as [|u l]; [congruence|].
  cbn [length] in Hsampled. lia.
Qed.

(** Every attempt reads the same source, further on. *)
Lemma attemptWorld_source words w ws i :
  heap w !! words = Some ws ->
  heap (attemptWorld words i w) !! words = Some ws /\
  source (attemptWorld words i w) = source w /\
  (drawn w <= drawn (attemptWorld words i w))%nat.
Proof.
  intros Hwords. induction i as [|i (Hheap & Hsource & Hdrawn)].
  - change (attemptWorld words 0 w) with w. auto.
  - change (attemptWorld words (S i) w)
      with (snd (generateSVG words (attemptWorld words i w))).
    pose proof (generateSVG_world words _ ws Hheap)
      as (Hs & _ & Hh & Hd & _).
    split; [exact Hh|]. split; [congruence|lia].
Qed.
End ProgressFacts.


(** * One layout *)

Section ArrayFacts.
Context `{N : Number}.

(** The arrays of a call, whatever [words] refers to. *)
Lemma generateSVG_arrays words w :
  Forall2 anchored (elementsOf words w) (rectanglesOf words w) /\
  disjoint (rectanglesOf words w).
Proof.
  unfold elementsOf, rectanglesOf.
  destruct (layoutPass_shuffle words (snd (count_layout w)))
    as (shuffled & d & _ & ->).
  set (w1 := mkWorld _ _ _ _ _).
  pose proof (placeWords_texts shuffled w1) as Htexts.
  pose proof (placeWords_disjoint shuffled w1) as Hdisjoint.
  destruct (placeWords shuffled [] [] [] w1)
    as [[[placed' elements'] unplaced'] w'].
  cbn [fst snd] in *. destruct Htexts as (_ & _ & Hanchored). auto.
Qed.
End ArrayFacts.

(** C5: in every layout that [generateSVG] returns, each text element is
    anchored in the rectangle placed for it, and on any two distinct
    rectangles of the layout [rectanglesOverlap] is [false]. *)
Theorem placements_do_not_overlap :
  forall (N : Number) (words : loc) (w : World) (svg : Svg) (w' : World),
    generateSVG words w = (Return svg, w') ->
    svg = elementsOf words w /\
    Forall2 anchored svg (rectanglesOf words w) /\
    forall (i j : nat) (a b : Rect.t),
      i <> j ->
      rectanglesOf words w !! i = Some a ->
      rectanglesOf words w !! j = Some b ->
      rectanglesOverlap a b = false.
Proof.
  intros N words w svg w' Hrun.
  apply generateSVG_Return in Hrun as [_ <-].
  destruct (generateSVG_arrays words w) as [Hanchored Hdisjoint].
  split; [reflexivity|]. split; [exact Hanchored|exact Hdisjoint].
Qed.

Lemma placements_do_not_overlap_witness :
  exists a b : Rect.t (H:=Exact),
    rectanglesOf 0%nat twoWordsWorld = [a; b] /\
    rectanglesOverlap a b = false.
Proof.
  assert (Hrun : exists svg w',
            generateSVG 0%nat twoWordsWorld = (Return svg, w'))
    by (eexists _, _; vm_compute; reflexivity).
  destruct Hrun as (svg & w' & Hrun).
  destruct (placements_do_not_overlap Exact 0%nat twoWordsWorld svg w' Hrun)
    as (_ & _ & Hdisjoint).
  eexists _, _. split; [vm_compute; reflexivity|].
  apply (Hdisjoint 0%nat 1%nat);
    [discriminate|vm_compute; reflexivity|vm_compute; reflexivity].
Defined.




(** C7: every word ends in exactly one of the two arrays of a call: the
    texts of the text elements together with the unplaced words are the
    input words up to order, each text element has its rectangle, and a
    word whose search fails is pushed on [unplacedWords] while the loop
    goes on with the words after it.  A call that returns has no unplaced
    word, one text element a word, with the texts of the input; a call
    that throws has an unplaced word and reports the unplaced ones. *)
Theorem layout_accounts_for_every_word :
  forall (N : Number) (words : loc) (w : World) (ws : list string),
    heap w !! words = Some ws ->
    map TextElement.text (elementsOf words w) ++ unplacedOf words w ≡ₚ ws /\
    (length (elementsOf words w) + length (unplacedOf words w)
     = length ws)%nat /\
    Forall2 anchored (elementsOf words w) (rectanglesOf words w) /\
    (forall word rest placedRectangles textElements unplacedWords w1,
       fst (findNonOverlappingPosition (estimateBoundingBox word FONT_SIZE)
              placedRectangles SVG_WIDTH SVG_HEIGHT w1) = None ->
       placeWords (word :: rest) placedRectangles textElements
         unplacedWords w1
       = placeWords rest placedRectangles textElements
           (unplacedWords ++ [word]) (afterUnplaced w1)) /\
    (forall svg w',
       generateSVG words w = (Return svg, w') ->
       svg = elementsOf words w /\ unplacedOf words w = [] /\
       map TextElement.text svg ≡ₚ ws /\ length svg = length ws) /\
    (forall message w',
       generateSVG words w = (Throw message, w') ->
       unplacedOf words w <> [] /\
       message = failureMessage (unplacedOf words w)).
Proof.
  intros N words w ws Hwords.
  destruct (generateSVG_shuffle words w ws Hwords)
    as (shuffled & Hperm & _ & _ & Hall & _ & Hanchored & _).
  assert (Htexts : map TextElement.text (elementsOf words w)
                     ++ unplacedOf words w ≡ₚ ws)
    by (rewrite Hall; exact Hperm).
  split; [exact Htexts|]. split; [|split; [exact Hanchored|split; [|split]]].
  - apply Permutation_length in Htexts.
    rewrite length_app, length_map in Htexts. exact Htexts.
  - intros word rest placedRectangles textElements unplacedWords w1 Hnone.
    destruct (placeWords_step word rest placedRectangles textElements
                unplacedWords w1) as [(k & Hk & Hfree & _)|[_ Hstep]];
      [|exact Hstep].
    rewrite findNonOverlappingPosition_None in Hnone.
    rewrite (Hnone k Hk) in Hfree. discriminate.
  - intros svg w' Hrun. apply generateSVG_Return in Hrun as [Hnil <-].
    rewrite Hnil, app_nil_r in Htexts. split; [reflexivity|].
    split; [exact Hnil|]. split; [exact Htexts|].
    apply Permutation_length in Htexts. rewrite length_map in Htexts.
    exact Htexts.
  - intros message w' Hrun. exact (generateSVG_Throw words w message w' Hrun).
Qed.

Lemma layout_accounts_for_every_word_witness :
  map TextElement.text
    (elementsOf (N:=Exact) 0%nat (constantWorld 0.5 ["abc"; "de"]%string))
  ++ unplacedOf 0%nat (constantWorld 0.5 ["abc"; "de"]%string)
  ≡ₚ ["abc"; "de"]%string.
Proof.
  refine (proj1 (layout_accounts_for_every_word Exact 0%nat
                   (constantWorld 0.5 ["abc"; "de"]%string)
                   ["abc"; "de"]%string _)).
  vm_compute. reflexivity.
Defined.

(** C9: a call of [generateSVG] leaves the caller's array as it was,
    whether it returns or throws: the only change of the heap is one new
    array, which holds the shuffled words, a permutation of the caller's,
    and over which the loop runs. *)
Theorem generateSVG_leaves_words_unchanged :
  forall (N : Number) (words : loc) (w : World) (ws : list string),
    heap w !! words = Some ws ->
    heap (snd (generateSVG words w)) !! words = Some ws /\
    exists (shuffled : list string) (d : nat),
      shuffled ≡ₚ ws /\
      fresh (dom (heap w)) <> words /\
      layoutPass words (snd (count_layout w))
      = placeWords shuffled [] [] []
          (mkWorld (source w) (drawn w + d)
             (<[fresh (dom (heap w)) := shuffled]> (heap w))
             (sampled w) (S (layouts w))) /\
      heap (snd (generateSVG words w))
      = <[fresh (dom (heap w)) := shuffled]> (heap w) /\
      (forall l : loc,
         l <> fresh (dom (heap w)) ->
         heap (snd (generateSVG words w)) !! l = heap w !! l).
Proof.
  intros N words w ws Hwords.
  assert (Hfresh : fresh (dom (heap w)) <> words).
  { intros Heq. apply (is_fresh (dom (heap w))). rewrite Heq.
    apply elem_of_dom. eexists. exact Hwords. }
  destruct (layoutPass_shuffle words (snd (count_layout w)))
    as (shuffled & d & Hperm & Hpass).
  cbn [count_layout snd source drawn heap sampled layouts] in Hperm, Hpass.
  rewrite Hwords in Hperm. cbn [default from_option id] in Hperm.
  assert (Hheap : heap (snd (generateSVG words w))
                  = <[fresh (dom (heap w)) := shuffled]> (heap w)).
  { rewrite generateSVG_run. cbn [snd count_layout]. rewrite Hpass.
    set (w1 := mkWorld _ _ _ _ _).
    pose proof (placeWords_world shuffled w1) as (_ & -> & _).
    reflexivity. }
  split.
  - rewrite Hheap, lookup_insert_ne; [exact Hwords|exact Hfresh].
  - exists shuffled, d. split; [exact Hperm|]. split; [exact Hfresh|].
    split; [exact Hpass|]. split; [exact Hheap|].
    intros l Hl. rewrite Hheap, lookup_insert_ne; [reflexivity|].
    intros Heq. apply Hl. symmetry. exact Heq.
Qed.

Lemma generateSVG_leaves_words_unchanged_witness :
  heap (snd (generateSVG (N:=Exact) 0%nat
               (constantWorld 0.5 ["abc"; "de"]%string))) !! 0%nat
  = Some ["abc"; "de"]%string.
Proof.
  refine (proj1 (generateSVG_leaves_words_unchanged Exact 0%nat
                   (constantWorld 0.5 ["abc"; "de"]%string)
                   ["abc"; "de"]%string _)).
  vm_compute. reflexivity.
Defined.

(** C10: on an empty array of words [generateSVG] returns, for every
    source: no comparator call, no sample and no draw is made, the three
    arrays stay empty and nothing is thrown. *)
Theorem generateSVG_no_words :
  forall (N : Number) (words : loc) (w : World),
    heap w !! words = Some [] ->
    generateSVG words w
    = (Return [],
       mkWorld (source w) (drawn w)
         (<[fresh (dom (heap w)) := []]> (heap w))
         (sampled w) (S (layouts w))) /\
    rectanglesOf words w = [] /\
    elementsOf words w = [] /\
    unplacedOf words w = [].
Proof.
  intros N words w Hwords.
  assert (Hpass : layoutPass words (snd (count_layout w))
                  = ([], [], [],
                     mkWorld (source w) (drawn w)
                       (<[fresh (dom (heap w)) := []]> (heap w))
                       (sampled w) (S (layouts w)))).
  { unfold layoutPass, array_sort, array_spread, array_get, set_heap.
    rewrite !bind_run.
    cbn [count_layout fst snd source drawn heap sampled layouts ret].
    rewrite Hwords. cbn [default from_option id].
    rewrite !lookup_insert_eq. cbn [default from_option id].
    cbn [insertionSort rev ret fst snd placeWords
         source drawn heap sampled layouts].
    rewrite insert_insert_eq. reflexivity. }
  rewrite generateSVG_run. unfold rectanglesOf, elementsOf, unplacedOf.
  rewrite Hpass. cbn. auto.
Qed.

Lemma generateSVG_no_words_witness :
  unplacedOf (N:=Exact) 0%nat (constantWorld 0.5 []) = [].
Proof.
  refine (proj2 (proj2 (proj2 (generateSVG_no_words Exact 0%nat
                                 (constantWorld 0.5 []) _)))).
  vm_compute. reflexivity.
Defined.

(** * The retries of [main] *)

(** C8: [main] ends, after at least one and at most [maxRetries = 10]
    calls of [generateSVG], each reading the source where the call before
    it stopped (a failed call consumed at least [2 * MAX_ATTEMPTS] draws).
    It ends on the first call that returns, writing that call's document,
    or, when all ten calls throw, by exiting with code 1 after reporting
    the unplaced words of the tenth call.  In all it samples at most
    [maxRetries * (number of words) * MAX_ATTEMPTS] candidate positions. *)
Theorem main_retries_are_bounded :
  forall (N : Number) (words : loc) (w : World) (ws : list string),
    heap w !! words = Some ws ->
    exists (outcome : Outcome) (w' : World),
      main words w = (Some outcome, w') /\
      (layouts w < layouts w')%nat /\
      (layouts w' <= layouts w + maxRetries)%nat /\
      (sampled w'
       <= sampled w + maxRetries * (length ws * MAX_ATTEMPTS))%nat /\
      (forall i : nat,
         source (attemptWorld words i w) = source w /\
         (failsAt words w i ->
          (drawn (attemptWorld words i w) + 2 * MAX_ATTEMPTS
           <= drawn (attemptWorld words (S i) w))%nat)) /\
      ((exists (k : nat) (svg : Svg),
          (k < maxRetries)%nat /\
          (forall i, (i < k)%nat -> failsAt words w i) /\
          generateSVG words (attemptWorld words k w) = (Return svg, w') /\
          outcome = Written (Some svg)) \/
       ((forall i, (i < maxRetries)%nat -> failsAt words w i) /\
        w' = attemptWorld words maxRetries w /\
        unplacedOf words (attemptWorld words (maxRetries - 1) w) <> [] /\
        outcome
        = Exited 1
            (finalReport
               (unplacedOf words (attemptWorld words (maxRetries - 1) w))))).
Proof.
  intros N words w ws Hwords. unfold main.
  destruct (retryLoop_spec words ws maxRetries 0%nat w)
    as (outcome & w' & Hrun & _ & _ & Hl & Hlhi & Hsam & _ & Hcases);
    [unfold maxRetries; lia|lia|exact Hwords|].
  rewrite Nat.sub_0_r in *.
  exists outcome, w'. split; [exact Hrun|]. split; [exact Hl|].
  split; [exact Hlhi|]. split; [exact Hsam|]. split.
  - intros i. split; [|apply failsAt_draws].
    apply (attemptWorld_source words w ws i Hwords).
  - destruct Hcases as [(k & svg & Hk & Hrest)|Hfail].
    + left. exists k, svg. split; [lia|exact Hrest].
    + right. exact Hfail.
Qed.

Lemma main_retries_are_bounded_witness :
  exists (outcome : Outcome) (w' : World (N:=Exact)),
    main 0%nat twoWordsWorld = (Some outcome, w') /\
    (layouts w' <= 10)%nat.
Proof.
  destruct (main_retries_are_bounded Exact 0%nat twoWordsWorld
              ["abc"; "de"]%string)
    as (outcome & w' & Hrun & _ & Hlayouts & _).
  - vm_compute. reflexivity.
  - exists outcome, w'. split; [exact Hrun|exact Hlayouts].
Defined.

(** ** Two runs of [main] *)

(** With the draws of [twoWordsWorld] the first call places both words. *)
Example main_first_attempt :
  exists svg,
    fst (main 0%nat twoWordsWorld) = Some (Written (Some svg)) /\
    map TextElement.text svg = ["abc"; "de"]%string /\
    layouts (snd (main 0%nat twoWordsWorld)) = 1%nat.
Proof.
  eexists. split; [vm_compute; reflexivity|].
  split; vm_compute; reflexivity.
Qed.

(** When every draw is 0.5 the second word always lands on the first: the
    ten calls all fail and [main] exits with the report of the last. *)
Example main_ten_failures :
  fst (main (N:=Exact) 0%nat (constantWorld 0.5 ["abc"; "de"]%string))
  = Some (Exited 1
            ("Failed after 10 attempts: Failed to place 1 word(s): de. "
             ++ "Try reducing font size or increasing canvas size.")%string)
  /\
  layouts (snd (main (N:=Exact) 0%nat
                  (constantWorld 0.5 ["abc"; "de"]%string))) = 10%nat.
Proof. split; vm_compute; reflexivity. Qed.


(** * Further properties *)

(** * [escapeXml] *)

Lemma append_assoc (a b c : string) :
  ((a ++ b) ++ c = a ++ (b ++ c))%string.
Proof.
  induction a as [|x a IH]; [reflexivity|].
  change (String x ((a ++ b) ++ c) = String x (a ++ (b ++ c)))%string.
  f_equal. exact IH.
Qed.

Lemma replaceAll_app (c : ascii) (replacement a b : string) :
  replaceAll c replacement (a ++ b)%string
  = (replaceAll c replacement a ++ replaceAll c replacement b)%string.
Proof.
  induction a as [|x a IH]; [reflexivity|].
  change (String x a ++ b)%string with (String x (a ++ b)%string).
  cbn [replaceAll]. rewrite IH. destruct (Ascii.eqb x c); [|reflexivity].
  symmetry. apply append_assoc.
Qed.

Lemma escapeXml_app (a b : string) :
  escapeXml (a ++ b)%string = (escapeXml a ++ escapeXml b)%string.
Proof. unfold escapeXml. rewrite !replaceAll_app. reflexivity. Qed.

Lemma escapeXml_char (c : ascii) :
  escapeXml (String c EmptyString) = escapeChar c.
Proof.
  destruct c as [[] [] [] [] [] [] [] []]; reflexivity.
Qed.

Lemma escapeXml_cons (c : ascii) (rest : string) :
  escapeXml (String c rest) = (escapeChar c ++ escapeXml rest)%string.
Proof.
  change (String c rest) with (String c EmptyString ++ rest)%string.
  rewrite escapeXml_app, escapeXml_char. reflexivity.
Qed.

Lemma chars_app (a b : string) : chars (a ++ b)%string = chars a ++ chars b.
Proof.
  induction a as [|x a IH]; [reflexivity|].
  change (String x a ++ b)%string with (String x (a ++ b)%string).
  cbn [chars]. rewrite IH. reflexivity.
Qed.

Lemma length_append (a b : string) :
  String.length (a ++ b)%string = (String.length a + String.length b)%nat.
Proof.
  induction a as [|x a IH]; [reflexivity|].
  change (String x a ++ b)%string with (String x (a ++ b)%string).
  cbn [String.length]. rewrite IH. reflexivity.
Qed.

Lemma unescapeXml_escapeChar (c : ascii) (rest : string) :
  unescapeXml (escapeChar c ++ rest)%string = String c (unescapeXml rest).
Proof.
  destruct c as [[] [] [] [] [] [] [] []]; reflexivity.
Qed.

Lemma isSpecial_escapeChar (c : ascii) :
  isSpecial c = false -> escapeChar c = String c EmptyString.
Proof.
  unfold isSpecial, escapeChar. rewrite !orb_false_iff.
  intros [[[[-> ->] ->] ->] ->]. reflexivity.
Qed.

Lemma escapeChar_length (c : ascii) :
  (1 <= String.length (escapeChar c) <= 6)%nat /\
  (isSpecial c = true -> 4 <= String.length (escapeChar c))%nat.
Proof.
  unfold escapeChar, isSpecial.
  destruct (Ascii.eqb c "&"), (Ascii.eqb c "<"), (Ascii.eqb c ">"),
    (Ascii.eqb c "034"), (Ascii.eqb c "'"); cbn; split; try lia; discriminate.
Qed.

Lemma escapeChar_clean (c : ascii) : markupFree (escapeChar c) = true.
Proof. destruct c as [[] [] [] [] [] [] [] []]; reflexivity. Qed.

(** X1: the five chained replacements of [escapeXml] act as one pass that
    rewrites each character on its own: the ampersands that the later
    replacements write are not escaped again, and escaping distributes
    over concatenation. *)
Theorem escapeXml_single_pass :
  (forall text : string, escapeXml text = escapeEach text) /\
  (forall a b : string,
     escapeXml (a ++ b)%string = (escapeXml a ++ escapeXml b)%string).
Proof.
  split; [|exact escapeXml_app].
  induction text as [|c rest IH]; [reflexivity|].
  rewrite escapeXml_cons, IH. reflexivity.
Qed.

(** X2: the result of [escapeXml] holds no angle bracket and no quote,
    double or single, whatever the text. *)
Theorem escapeXml_leaves_no_markup :
  forall text : string, markupFree (escapeXml text) = true.
Proof.
  induction text as [|c rest IH]; [reflexivity|].
  pose proof (escapeChar_clean c) as Hc. unfold markupFree in *.
  rewrite escapeXml_cons, chars_app, forallb_app, IH, Hc. reflexivity.
Qed.

(** X3: [escapeXml] loses nothing: reading the five entities back gives
    the text, so two texts with the same escaped form are the same. *)
Theorem escapeXml_round_trip :
  (forall text : string, unescapeXml (escapeXml text) = text) /\
  (forall a b : string, escapeXml a = escapeXml b -> a = b).
Proof.
  assert (Hround : forall text, unescapeXml (escapeXml text) = text).
  { induction text as [|c rest IH]; [reflexivity|].
    rewrite escapeXml_cons, unescapeXml_escapeChar, IH. reflexivity. }
  split; [exact Hround|].
  intros a b Heq. rewrite <- (Hround a), <- (Hround b), Heq. reflexivity.
Qed.

(** X4: [escapeXml] never shortens a text and at most multiplies its
    length by six; it returns the text unchanged exactly when the text
    has none of the five characters. *)
Theorem escapeXml_growth :
  forall text : string,
    (String.length text <= String.length (escapeXml text))%nat /\
    (String.length (escapeXml text) <= 6 * String.length text)%nat /\
    (escapeXml text = text <-> forallb (fun c => negb (isSpecial c)) (chars text) = true).
Proof.
  induction text as [|c rest (Hlo & Hhi & Hid)].
  - cbn. repeat split; lia.
  - rewrite escapeXml_cons, length_append. cbn [String.length chars forallb].
    destruct (escapeChar_length c) as [[Hc1 Hc6] Hc4].
    split; [lia|]. split; [lia|].
    rewrite andb_true_iff, <- Hid, negb_true_iff.
    destruct (isSpecial c) eqn:Hspecial.
    + split; [|intros [[=] _]]. intros Heq. exfalso.
      apply (f_equal String.length) in Heq.
      rewrite length_append in Heq. cbn [String.length] in Heq.
      specialize (Hc4 eq_refl). lia.
    + rewrite (isSpecial_escapeChar c Hspecial).
      change (String c EmptyString ++ escapeXml rest)%string
        with (String c (escapeXml rest)).
      split.
      * intros [= Heq]. auto.
      * intros [_ ->]. reflexivity.
Qed.

(** * [readWords] *)

















(** * More on the search *)

Section SearchExtras.
Context `{N : Number}.

Lemma findNonOverlappingPosition_run boundingBox placedRectangles
    width height w :
  match findNonOverlappingPosition boundingBox placedRectangles
          width height w with
  | (Some r, w') =>
      exists k, (k < MAX_ATTEMPTS)%nat /\
        r = candidate boundingBox width height w k /\
        blocked placedRectangles r = false /\
        (forall j, (j < k)%nat ->
           blocked placedRectangles
             (candidate boundingBox width height w j) = true) /\
        w' = mkWorld (source w) (drawn w + 2 * S k) (heap w)
               (sampled w + S k) (layouts w)
  | (None, w') =>
      w' = mkWorld (source w) (drawn w + 2 * MAX_ATTEMPTS) (heap w)
             (sampled w + MAX_ATTEMPTS) (layouts w)
  end.
Proof.
  unfold findNonOverlappingPosition.
  pose proof (findPosition_spec MAX_ATTEMPTS boundingBox placedRectangles
                width height w) as Hspec.
  destruct (findPosition MAX_ATTEMPTS boundingBox placedRectangles
              width height w) as [[r|] w']; [exact Hspec|apply Hspec].
Qed.

Lemma findNonOverlappingPosition_empty_run boundingBox width height w :
  findNonOverlappingPosition boundingBox [] width height w
  = (Some (candidate boundingBox width height w 0),
     mkWorld (source w) (drawn w + 2) (heap w) (sampled w + 1) (layouts w)).
Proof.
  pose proof (findNonOverlappingPosition_run boundingBox [] width height w)
    as Hrun.
  pose proof (findNonOverlappingPosition_empty boundingBox width height w)
    as Hfirst.
  destruct (findNonOverlappingPosition boundingBox [] width height w)
    as [[r|] w']; cbn [fst] in Hfirst; [|discriminate].
  destruct Hrun as (k & _ & Hr & _ & Hbefore & ->).
  destruct k as [|k].
  - injection Hfirst as ->. reflexivity.
  - specialize (Hbefore 0%nat ltac:(lia)). discriminate.
Qed.

Lemma blocked_app (l l' : list Rect.t) (r : Rect.t) :
  blocked (l ++ l') r = blocked l r || blocked l' r.
Proof. unfold blocked. apply existsb_app. Qed.

Lemma blocked_perm (l l' : list Rect.t) (r : Rect.t) :
  l ≡ₚ l' -> blocked l r = blocked l' r.
Proof.
  unfold blocked. induction 1 as [|x l l' _ IH|x y l|l l' l'' _ IH1 _ IH2];
    cbn [existsb].
  - reflexivity.
  - rewrite IH. reflexivity.
  - rewrite !orb_assoc, (orb_comm (rectanglesOverlap r y)). reflexivity.
  - congruence.
Qed.

Lemma findPosition_ext attempts boundingBox placedRectangles placedRectangles'
    width height w :
  (forall r, blocked placedRectangles r = blocked placedRectangles' r) ->
  findPosition attempts boundingBox placedRectangles width height w
  = findPosition attempts boundingBox placedRectangles' width height w.
Proof.
  intros Hsame. revert w. induction attempts as [|n IH]; intros w;
    [reflexivity|].
  cbn [findPosition]. unfold bind, Math_random, count_sample.
  cbn [source drawn heap sampled layouts].
  set (newRect := Rect.mk _ _ _ _).
  fold (blocked placedRectangles newRect).
  fold (blocked placedRectangles' newRect). rewrite Hsame.
  destruct (blocked placedRectangles' newRect); cbn [negb];
    [apply IH|reflexivity].
Qed.
End SearchExtras.

(** X7: a rectangle that the search returns has the size of the box,
    overlaps none of the obstacles (in either order of the test), and is
    candidate [k] of the search for some [k] below [MAX_ATTEMPTS]; the
    search then made [k + 1] samples and [2 (k + 1)] draws and left the
    arrays alone. *)
Theorem findNonOverlappingPosition_sound :
  forall (N : Number) (boundingBox : Box.t) (placedRectangles : list Rect.t)
         (width height : num) (w : World) (r : Rect.t) (w' : World),
    findNonOverlappingPosition boundingBox placedRectangles width height w
    = (Some r, w') ->
    Rect.width r = Box.width boundingBox /\
    Rect.height r = Box.height boundingBox /\
    Forall (fun rect => rectanglesOverlap r rect = false /\
                        rectanglesOverlap rect r = false)
      placedRectangles /\
    exists k : nat,
      (k < MAX_ATTEMPTS)%nat /\
      r = candidate boundingBox width height w k /\
      w' = mkWorld (source w) (drawn w + 2 * S k) (heap w)
             (sampled w + S k) (layouts w).
Proof.
  intros N boundingBox placedRectangles width height w r w' Hrun.
  pose proof (findNonOverlappingPosition_run boundingBox placedRectangles
                width height w) as Hspec.
  rewrite Hrun in Hspec. destruct Hspec as (k & Hk & Hr & Hfree & _ & Hw').
  split; [rewrite Hr; reflexivity|]. split; [rewrite Hr; reflexivity|].
  split.
  - rewrite blocked_false in Hfree. apply List.Forall_forall.
    intros rect Hin. apply list_elem_of_In in Hin.
    split; [|rewrite rectanglesOverlap_sym]; apply Hfree; exact Hin.
  - exists k. auto.
Qed.

Lemma findNonOverlappingPosition_sound_witness :
  exists r : Rect.t (H:=Exact),
    Rect.width r = lit 10 /\ Rect.height r = lit 10.
Proof.
  destruct (findNonOverlappingPosition (N:=Exact) (box 10 10)
              [rect 0 0 10 10] (lit 100) (lit 100) (constantWorld 0.5 []))
    as [[r|] w'] eqn:Hrun; [|vm_compute in Hrun; discriminate].
  exists r.
  destruct (findNonOverlappingPosition_sound Exact _ _ _ _ _ r w' Hrun)
    as (Hwidth & Hheight & _).
  split; [exact Hwidth|exact Hheight].
Defined.

(** X8: the obstacles count as a set: the search answers the same, and
    leaves the same world, for the obstacles in any order, and a search
    that finds no position finds none with more obstacles. *)
Theorem obstacles_count_as_a_set :
  forall (N : Number) (boundingBox : Box.t)
         (placedRectangles placedRectangles' more : list Rect.t)
         (width height : num) (w : World),
    placedRectangles ≡ₚ placedRectangles' ->
    findNonOverlappingPosition boundingBox placedRectangles width height w
    = findNonOverlappingPosition boundingBox placedRectangles' width height w
    /\
    (fst (findNonOverlappingPosition boundingBox placedRectangles
            width height w) = None ->
     fst (findNonOverlappingPosition boundingBox (placedRectangles ++ more)
            width height w) = None).
Proof.
  intros N boundingBox placedRectangles placedRectangles' more width height w
    Hperm.
  split.
  - unfold findNonOverlappingPosition. apply findPosition_ext.
    intros r. apply blocked_perm. exact Hperm.
  - rewrite !findNonOverlappingPosition_None. intros Hall j Hj.
    rewrite blocked_app, (Hall j Hj). reflexivity.
Qed.

Lemma obstacles_count_as_a_set_witness :
  findNonOverlappingPosition (N:=Exact) (box 10 10)
    [rect 0 0 10 10; rect 50 50 10 10] (lit 100) (lit 100)
    (constantWorld 0.5 [])
  = findNonOverlappingPosition (N:=Exact) (box 10 10)
      [rect 50 50 10 10; rect 0 0 10 10] (lit 100) (lit 100)
      (constantWorld 0.5 []).
Proof.
  apply (obstacles_count_as_a_set Exact (box 10 10)
           [rect 0 0 10 10; rect 50 50 10 10]
           [rect 50 50 10 10; rect 0 0 10 10] []).
  apply Permutation_swap.
Defined.


(** * More on the loop and on one call *)

Section LayoutExtras.
Context `{N : Number}.

(** The first word of the loop meets no obstacle. *)
Lemma placeWords_first word rest w :
  placeWords (word :: rest) [] [] [] w
  = placeWords rest
      [candidate (estimateBoundingBox word FONT_SIZE) SVG_WIDTH SVG_HEIGHT w 0]
      [elementAt word
         (candidate (estimateBoundingBox word FONT_SIZE)
            SVG_WIDTH SVG_HEIGHT w 0) w 0]
      [] (afterPlaced w 0).
Proof.
  cbn [placeWords]. rewrite bind_run, findNonOverlappingPosition_empty_run.
  cbn [fst snd]. rewrite bind_run.
  unfold afterPlaced, elementAt, Math_random.
  cbn [fst snd source drawn heap sampled layouts].
  replace (drawn w + 2 * 1)%nat with (drawn w + 2)%nat by lia.
  replace (S (drawn w + 2)) with (S (drawn w + 2)) by lia.
  reflexivity.
Qed.

(** The loop only pushes. *)
Lemma placeWords_grows shuffledWords placedRectangles textElements
    unplacedWords w :
  let '(placed', elements', unplaced', _) :=
    placeWords shuffledWords placedRectangles textElements unplacedWords w in
  (length placedRectangles <= length placed')%nat /\
  (length textElements <= length elements')%nat /\
  (length unplacedWords <= length unplaced')%nat.
Proof.
  destruct (placeWords_invariant
              (fun _ placed1 elements1 unplaced1 _ =>
                 (length placedRectangles <= length placed1)%nat /\
                 (length textElements <= length elements1)%nat /\
                 (length unplacedWords <= length unplaced1)%nat))
    with (shuffledWords := shuffledWords)
         (placedRectangles := placedRectangles)
         (textElements := textElements) (unplacedWords := unplacedWords)
         (w := w)
    as (placed' & elements' & unplaced' & w' & -> & Hinv).
  - intros word rest placed1 elements1 unplaced1 w1 k (Hp & He & Hu) _ _.
    rewrite !length_app. cbn [length]. repeat split; lia.
  - intros word rest placed1 elements1 unplaced1 w1 (Hp & He & Hu).
    rewrite !length_app. cbn [length]. repeat split; lia.
  - repeat split; lia.
  - exact Hinv.
Qed.

(** Samples of the loop: one at least for a placed word, all of them for
    an unplaced one; two draws a sample and one a placed word. *)
Lemma placeWords_samples shuffledWords w :
  let '(_, elements', unplaced', w') := placeWords shuffledWords [] [] [] w in
  (sampled w + length elements' + length unplaced' * MAX_ATTEMPTS
   <= sampled w')%nat /\
  (sampled w'
   <= sampled w + (length elements' + length unplaced') * MAX_ATTEMPTS)%nat /\
  drawn w' = (drawn w + 2 * (sampled w' - sampled w) + length elements')%nat.
Proof.
  destruct (placeWords_invariant
              (fun _ _ elements1 unplaced1 w1 =>
                 (sampled w + length elements1
                  + length unplaced1 * MAX_ATTEMPTS <= sampled w1)%nat /\
                 (sampled w1
                  <= sampled w
                     + (length elements1 + length unplaced1)
                       * MAX_ATTEMPTS)%nat /\
                 drawn w1 = (drawn w + 2 * (sampled w1 - sampled w)
                             + length elements1)%nat))
    with (shuffledWords := shuffledWords) (placedRectangles := @nil Rect.t)
         (textElements := @nil TextElement.t) (unplacedWords := @nil string)
         (w := w)
    as (placed' & elements' & unplaced' & w' & -> & Hinv).
  - intros word rest _ elements1 unplaced1 w1 k (Hlo & Hhi & Hdrawn) Hk _.
    rewrite length_app. cbn [length afterPlaced sampled drawn].
    split; [lia|]. split; [nia|lia].
  - intros word rest _ elements1 unplaced1 w1 (Hlo & Hhi & Hdrawn).
    rewrite length_app. cbn [length afterUnplaced sampled drawn].
    split; [lia|]. split; [nia|lia].
  - cbn [length]. repeat split; lia.
  - exact Hinv.
Qed.
End LayoutExtras.

Section CallExtras.
Context `{N : Number}.


Lemma layoutPass_one words w word :
  heap w !! words = Some [word] ->
  layoutPass words w
  = placeWords [word] [] [] []
      (mkWorld (source w) (drawn w)
         (<[fresh (dom (heap w)) := [word]]> (heap w))
         (sampled w) (layouts w)).
Proof.
  intros Hwords.
  unfold layoutPass, array_sort, array_spread, array_get, set_heap.
  rewrite !bind_run.
  cbn [fst snd source drawn heap sampled layouts ret].
  rewrite Hwords. cbn [default from_option id].
  rewrite !lookup_insert_eq. cbn [default from_option id].
  cbn [insertionSort insertion].
  rewrite !bind_run.
  cbn [rev app ret fst snd source drawn heap sampled layouts].
  rewrite ?lookup_insert_eq, insert_insert_eq. reflexivity.
Qed.

(** The first iteration of [main] when its call returns. *)
Lemma main_first_call words w svg w' :
  generateSVG words w = (Return svg, w') ->
  main words w = (Some (Written (Some svg)), w').
Proof.
  intros Hcall. unfold main.
  change (retryLoop maxRetries words 0 w)
    with (bind (generateSVG words)
            (fun completion =>
               match completion with
               | Return svg => ret (Some (Written (Some svg)))
               | Throw message =>
                   if (maxRetries <=? 1)%nat
                   then ret (Some (Exited 1
                          ("Failed after " ++ pretty maxRetries
                           ++ " attempts: " ++ message)%string))
                   else retryLoop 9 words 1
               end) w).
  rewrite bind_run, Hcall. reflexivity.
Qed.
End CallExtras.

(** X10: when the array has a word, the first word of the loop is always
    placed: a call leaves a text element and a rectangle, and never has
    all the words unplaced. *)
Theorem first_word_is_always_placed :
  forall (N : Number) (words : loc) (w : World) (ws : list string),
    heap w !! words = Some ws ->
    ws <> [] ->
    (1 <= length (elementsOf words w))%nat /\
    (1 <= length (rectanglesOf words w))%nat /\
    (length (unplacedOf words w) < length ws)%nat.
Proof.
  intros N words w ws Hwords Hne.
  assert (Hfirst : (1 <= length (elementsOf words w))%nat /\
                   (1 <= length (rectanglesOf words w))%nat).
  { unfold elementsOf, rectanglesOf.
    destruct (layoutPass_shuffle words (snd (count_layout w)))
      as (shuffled & d & Hperm & ->).
    cbn [count_layout snd heap] in Hperm. rewrite Hwords in Hperm.
    cbn [default from_option id] in Hperm.
    destruct shuffled as [|word rest].
    { apply Permutation_nil_l in Hperm. congruence. }
    rewrite placeWords_first.
    match goal with
    | |- context [placeWords rest ?p ?e ?u ?w1] =>
        pose proof (placeWords_grows rest p e u w1) as Hgrow;
        destruct (placeWords rest p e u w1)
          as [[[placed' elements'] unplaced'] w']
    end.
    cbn [fst snd length] in *. lia. }
  destruct (generateSVG_shuffle words w ws Hwords)
    as (shuffled & Hperm & _ & _ & Hall & _).
  rewrite Hperm in Hall. apply Permutation_length in Hall.
  rewrite length_app, length_map in Hall. lia.
Qed.

Lemma first_word_is_always_placed_witness :
  (length (unplacedOf (N:=Exact) 0%nat
             (constantWorld 0.5 ["abc"; "de"]%string)) < 2)%nat.
Proof.
  refine (proj2 (proj2 (first_word_is_always_placed Exact 0%nat
                          (constantWorld 0.5 ["abc"; "de"]%string)
                          ["abc"; "de"]%string _ _))).
  - vm_compute. reflexivity.
  - discriminate.
Defined.

Section OneWord.
Context `{N : Number}.

(** A call on an array of one word. *)
Lemma generateSVG_one words w word :
  heap w !! words = Some [word] ->
  exists (element : TextElement.t) (w' : World),
    generateSVG words w = (Return [element], w') /\
    TextElement.text element = word /\
    rectanglesOf words w
    = [candidate (estimateBoundingBox word FONT_SIZE)
         SVG_WIDTH SVG_HEIGHT w 0] /\
    drawn w' = (drawn w + 3)%nat /\
    sampled w' = (sampled w + 1)%nat /\
    layouts w' = S (layouts w).
Proof.
  intros Hwords.
  assert (Hpass : layoutPass words (snd (count_layout w))
                  = placeWords [word] [] [] []
                      (mkWorld (source w) (drawn w)
                         (<[fresh (dom (heap w)) := [word]]> (heap w))
                         (sampled w) (S (layouts w))))
    by (apply layoutPass_one; exact Hwords).
  rewrite placeWords_first in Hpass. cbn [placeWords ret] in Hpass.
  assert (Helements : elementsOf words w
                      = [elementAt word
                           (candidate (estimateBoundingBox word FONT_SIZE)
                              SVG_WIDTH SVG_HEIGHT w 0) w 0]).
  { unfold elementsOf. rewrite Hpass. reflexivity. }
  assert (Hcall : generateSVG words w
                  = (Return (elementsOf words w),
                     snd (layoutPass words (snd (count_layout w))))).
  { rewrite generateSVG_run. unfold unplacedOf, elementsOf.
    rewrite Hpass. reflexivity. }
  rewrite Helements in Hcall.
  exists (elementAt word
            (candidate (estimateBoundingBox word FONT_SIZE)
               SVG_WIDTH SVG_HEIGHT w 0) w 0),
         (snd (layoutPass words (snd (count_layout w)))).
  split; [exact Hcall|]. split; [reflexivity|].
  split; [unfold rectanglesOf; rewrite Hpass; reflexivity|].
  split; [rewrite Hpass; cbn; lia|].
  split; rewrite Hpass; reflexivity.
Qed.
End OneWord.

(** X11: on an array of one word a call always returns, whatever the
    source and the size of the word: the word takes the first candidate,
    after one sample and three draws, and [main] writes the document of
    its first call. *)
Theorem single_word_always_succeeds :
  forall (N : Number) (words : loc) (w : World) (word : string),
    heap w !! words = Some [word] ->
    exists (element : TextElement.t) (w' : World),
      generateSVG words w = (Return [element], w') /\
      TextElement.text element = word /\
      rectanglesOf words w
      = [candidate (estimateBoundingBox word FONT_SIZE)
           SVG_WIDTH SVG_HEIGHT w 0] /\
      drawn w' = (drawn w + 3)%nat /\
      sampled w' = (sampled w + 1)%nat /\
      main words w = (Some (Written (Some [element])), w').
Proof.
  intros N words w word Hwords.
  destruct (generateSVG_one words w word Hwords)
    as (element & w' & Hcall & Htext & Hrect & Hdrawn & Hsampled & _).
  exists element, w'. split; [exact Hcall|]. split; [exact Htext|].
  split; [exact Hrect|]. split; [exact Hdrawn|]. split; [exact Hsampled|].
  apply main_first_call. exact Hcall.
Qed.

Lemma single_word_always_succeeds_witness :
  exists (element : TextElement.t (H:=Double)) (w' : World),
    generateSVG 0%nat (constantWorld 0.5 [longWord])
    = (Return [element], w') /\
    TextElement.text element = longWord.
Proof.
  destruct (single_word_always_succeeds Double 0%nat
              (constantWorld 0.5 [longWord]) longWord)
    as (element & w' & Hcall & Htext & _).
  - vm_compute. reflexivity.
  - exists element, w'. split; [exact Hcall|exact Htext].
Defined.

(** * Text elements, in exact arithmetic *)







(** X14: a call samples at least once for each placed word and
    [MAX_ATTEMPTS] times for each unplaced one, at most [MAX_ATTEMPTS]
    times a word, and draws at least twice a sample and once more a
    placed word. *)
Theorem samples_of_a_call :
  forall (N : Number) (words : loc) (w : World),
    (sampled w + length (elementsOf words w)
     + length (unplacedOf words w) * MAX_ATTEMPTS
     <= sampled (snd (generateSVG words w)))%nat /\
    (sampled (snd (generateSVG words w))
     <= sampled w
        + (length (elementsOf words w) + length (unplacedOf words w))
          * MAX_ATTEMPTS)%nat /\
    (drawn w + 2 * (sampled (snd (generateSVG words w)) - sampled w)
     + length (elementsOf words w)
     <= drawn (snd (generateSVG words w)))%nat.
Proof.
  intros N words w. rewrite generateSVG_run.
  unfold elementsOf, unplacedOf. cbn [snd].
  destruct (layoutPass_shuffle words (snd (count_layout w)))
    as (shuffled & d & _ & ->).
  cbn [count_layout snd source drawn heap sampled layouts].
  set (w1 := mkWorld _ _ _ _ _).
  pose proof (placeWords_samples shuffled w1) as Hsamples.
  destruct (placeWords shuffled [] [] [] w1)
    as [[[placed' elements'] unplaced'] w'].
  subst w1. cbn [fst snd sampled drawn] in *.
  destruct Hsamples as (Hlo & Hhi & Hdrawn). repeat split; lia.
Qed.


